(** * PPL interpreter (main.cpp): a shallow embedding and its verified properties

    The interpreter keeps every variable in one table ([Env::table]) and
    builds lists out of reference-counted [ListNode]s.  The embedding keeps
    the nodes in an explicit free store so that two list heads that point at
    the same node are visibly the same address. *)

From Stdlib Require Import ZArith Ascii String.
From stdpp Require Import gmap strings list fin_maps sorting pretty.

(** ** Value model *)

(** [shared_ptr<ListNode>]: either [nullptr] or the address of a node. *)
Abbreviation addr := nat.
Abbreviation ListPtr := (option addr).

Inductive ValueType := VT_INT | VT_LIST.

Global Instance ValueType_eq_dec : EqDecision ValueType.
Proof. solve_decision. Defined.

(** [struct Value]; its members are read as [Value.type val] and so on. *)
Module Value.
Record t := mk { type : ValueType; ival : Z; list : ListPtr }.
End Value.
Abbreviation Value := Value.t.

(** [struct ListNode] *)
Module ListNode.
Record t := mk { v : Value; next : ListPtr }.
End ListNode.
Abbreviation ListNode := ListNode.t.

Global Instance Value_eq_dec : EqDecision Value.
Proof. solve_decision. Defined.

Global Instance ListNode_eq_dec : EqDecision ListNode.
Proof. solve_decision. Defined.

(** [Value::make_int] and [Value::make_list] start from the default
    constructor [Value() : type(VT_INT), ival(0), list(nullptr)]. *)
Definition make_int (n : Z) : Value := Value.mk VT_INT n None.
Definition make_list (l : ListPtr) : Value := Value.mk VT_LIST 0 l.

(** The free store.  A node lives at the index at which it was allocated;
    reference counts and deallocation are not modelled, a node that the
    program drops simply stays where it is and is never looked at again. *)
Abbreviation Heap := (list ListNode).

(** [make_shared<ListNode>(val, nx)] *)
Definition make_shared (val : Value) (nx : ListPtr) (h : Heap) : ListPtr * Heap :=
  (Some (length h), h ++ [ListNode.mk val nx]).

(** [p->next = q] for the node at address [p] *)
Definition set_next (p : addr) (q : ListPtr) (h : Heap) : Heap :=
  match h !! p with
  | Some node => <[p := ListNode.mk (ListNode.v node) q]> h
  | None => h
  end.

(** [*pp = q] where [pp] is the cursor of the copy loops: [None] stands for
    [&head], [Some p] for [&(p->next)].  The result is the new value of
    [head] and the new store. *)
Definition store_pp (pp : option addr) (q : ListPtr) (head : ListPtr) (h : Heap)
  : ListPtr * Heap :=
  match pp with
  | None => (q, h)
  | Some p => (head, set_next p q h)
  end.

(** The node-by-node copy loop that [Value::deep_copy] and
    [Instr_TAIL::execute] both contain:
    compute [vcopy]; store a fresh node [make_shared<ListNode>(vcopy, nullptr)]
    through [pp]; let [pp] point at the [next] member of that node; advance
    [cur] to [cur->next].
    [copy_elem] computes [vcopy]; [n] bounds the number of iterations. *)
Fixpoint copy_nodes (copy_elem : Value -> Heap -> option (Value * Heap))
    (n : nat) (cur : ListPtr) (pp : option addr) (head : ListPtr) (h : Heap)
  : option (ListPtr * Heap) :=
  match cur with
  | None => Some (head, h)
  | Some c =>
    match n with
    | O => None
    | S n' =>
      node ← h !! c;
      '(vcopy, h1) ← copy_elem (ListNode.v node) h;
      let '(fresh, h2) := make_shared vcopy None h1 in
      let '(head', h3) := store_pp pp fresh head h2 in
      node' ← h3 !! c;
      copy_nodes copy_elem n' (ListNode.next node') fresh head' h3
    end
  end.

(** The body of the loop of [Value::deep_copy] that computes [vcopy]: the
    conditional expression first (for a nested non-empty list it deep-copies
    the first element of that list and keeps only its [list] field), then the
    assignment [vcopy = curSrc->v.deep_copy()] that overrides it for lists. *)
Definition deep_copy_elem (rec : Value -> Heap -> option (Value * Heap))
    (cv : Value) (h : Heap) : option (Value * Heap) :=
  '(vcopy, h1) ←
     match Value.type cv with
     | VT_INT => Some (make_int (Value.ival cv), h)
     | VT_LIST =>
       match Value.list cv with
       | Some b =>
         nb ← h !! b;
         '(w, h1) ← rec (ListNode.v nb) h;
         Some (make_list (Value.list w), h1)
       | None => Some (make_list None, h)
       end
     end;
  match Value.type cv with
  | VT_LIST => rec cv h1
  | VT_INT => Some (vcopy, h1)
  end.

(** [Value::deep_copy].  [fuel] bounds the nesting depth and the length of
    the chains that are walked; [None] means that it was too small (or that a
    pointer dangles, which no store built by the interpreter has). *)
Fixpoint deep_copy (fuel : nat) (val : Value) (h : Heap) : option (Value * Heap) :=
  match fuel with
  | O => None
  | S fuel' =>
    match Value.type val with
    | VT_INT => Some (make_int (Value.ival val), h)
    | VT_LIST =>
      match Value.list val with
      | None => Some (make_list None, h)
      | Some _ =>
        '(head, h') ← copy_nodes (deep_copy_elem (deep_copy fuel')) fuel'
                        (Value.list val) None None h;
        Some (make_list head, h')
      end
    end
  end.

(** ** Printing *)

(** [std::to_string(long long)] and [cout << long long]: decimal text. *)
Definition to_string (n : Z) : string := pretty n.

(** The loop of [list_to_string]; [vts] is [value_to_string]. *)
Fixpoint list_to_string_loop (vts : Value -> option string) (n : nat) (h : Heap)
    (cur : ListPtr) (first : bool) (s : string) : option string :=
  match cur with
  | None => Some s
  | Some c =>
    match n with
    | O => None
    | S n' =>
      node ← h !! c;
      let s1 := if first then s else s +:+ ", " in
      e ← vts (ListNode.v node);
      list_to_string_loop vts n' h (ListNode.next node) false (s1 +:+ e)
    end
  end.

Fixpoint list_to_string (fuel : nat) (h : Heap) (head : ListPtr) : option string :=
  match fuel with
  | O => None
  | S fuel' =>
    let value_to_string (val : Value) :=
      match Value.type val with
      | VT_INT => Some (to_string (Value.ival val))
      | VT_LIST => list_to_string fuel' h (Value.list val)
      end in
    match head with
    | None => Some "[]"
    | Some _ =>
      s ← list_to_string_loop value_to_string fuel' h head true "[";
      Some (s +:+ "]")
    end
  end.

Definition value_to_string (fuel : nat) (h : Heap) (val : Value) : option string :=
  match Value.type val with
  | VT_INT => Some (to_string (Value.ival val))
  | VT_LIST => list_to_string fuel h (Value.list val)
  end.

(** ** Environment *)

(** [Env::table], a [map<string, Value>]. *)
Abbreviation Env := (gmap string Value).

(** [Env::exists] *)
Definition exists_ (id : string) (e : Env) : bool := bool_decide (is_Some (e !! id)).

(** [Env::set]: [table[id] = v] inserts or overwrites. *)
Definition set (id : string) (val : Value) (e : Env) : Env := <[id := val]> e.

(** What an instruction works on: the table of the [Env] it is handed and the
    free store that the list values of the table point into. *)
Record Store := mkStore { heap : Heap; env : Env }.

Definition with_heap (h : Heap) (st : Store) : Store := {| heap := h; env := env st |}.
Definition with_env (e : Env) (st : Store) : Store := {| heap := heap st; env := e |}.

(** ** Errors *)

(** The interpreter throws [runtime_error] everywhere; [kind] records which
    category of the specification the throwing site belongs to, [what] is the
    message the source builds. *)
Inductive ErrKind :=
| AlreadyDeclared | Undefined | NotAList | EmptyList | TypeMismatch
| JumpOutOfRange | ParseError | CannotOpen.

Global Instance ErrKind_eq_dec : EqDecision ErrKind.
Proof. solve_decision. Defined.

Record runtime_error := mkError { kind : ErrKind; what : string }.

Inductive Res (A : Type) :=
| Ok (a : A)
| Throw (e : runtime_error).
Arguments Ok {A} a.
Arguments Throw {A} e.

(** ["Line " + to_string(lineNo) + msg + id] *)
Definition line_msg (lineNo : Z) (msg id : string) : string :=
  "Line " +:+ to_string lineNo +:+ msg +:+ id.

Definition throw {A} (k : ErrKind) (lineNo : Z) (msg id : string) (st : Store)
  : option (Res A * Store) :=
  Some (Throw {| kind := k; what := line_msg lineNo msg id |}, st).

(** ** Instructions *)

(** [long long] arithmetic: the result of [+] and unary [-] is reduced to the
    two's-complement range of the 64-bit host integer. *)
Definition wrap64 (n : Z) : Z := ((n + 2 ^ 63) mod 2 ^ 64 - 2 ^ 63)%Z.

(** One constructor per subclass of [Instruction]; [NOP] is the local class
    that [load_program] puts on blank lines. *)
Inductive Instruction :=
| Instr_INTEGER (lineNo : Z) (id : string)
| Instr_LIST (lineNo : Z) (id : string)
| Instr_MERGE (lineNo : Z) (from tolist : string)
| Instr_COPY (lineNo : Z) (src dst : string)
| Instr_HEAD (lineNo : Z) (listid id : string)
| Instr_TAIL (lineNo : Z) (src dst : string)
| Instr_ASSIGN (lineNo : Z) (id : string) (val : Z)
| Instr_CHS (lineNo : Z) (id : string)
| Instr_ADD (lineNo : Z) (a b : string)
| Instr_IF (lineNo : Z) (id : string) (target : Z)
| Instr_HLT (lineNo : Z)
| NOP (lineNo : Z).

Global Instance Instruction_eq_dec : EqDecision Instruction.
Proof. solve_decision. Defined.

Definition lineNo_of (ins : Instruction) : Z :=
  match ins with
  | Instr_INTEGER l _ | Instr_LIST l _ | Instr_MERGE l _ _ | Instr_COPY l _ _
  | Instr_HEAD l _ _ | Instr_TAIL l _ _ | Instr_ASSIGN l _ _ | Instr_CHS l _
  | Instr_ADD l _ _ | Instr_IF l _ _ | Instr_HLT l | NOP l => l
  end.

(** [Instruction::execute(env, pc, program)]: the next line number ([-1] to
    terminate) or the exception thrown, and the store as the call leaves it
    (an exception does not undo what was done before it).  [None] only when
    [fuel] is too small for a list traversal.  [Env::get] and
    [Env::get_const] are only ever called on an identifier for which
    [Env::exists] has just answered true, so their own [throw] cannot happen
    and the lookups are written in the option monad. *)
Definition execute (fuel : nat) (ins : Instruction) (pc : Z)
    (program : list Instruction) (st : Store) : option (Res Z * Store) :=
  match ins with
  | Instr_INTEGER lineNo id =>
    if exists_ id (env st)
    then throw AlreadyDeclared lineNo ": Identifier already declared: " id st
    else Some (Ok (pc + 1)%Z, with_env (set id (make_int 0) (env st)) st)
  | Instr_LIST lineNo id =>
    if exists_ id (env st)
    then throw AlreadyDeclared lineNo ": Identifier already declared: " id st
    else Some (Ok (pc + 1)%Z, with_env (set id (make_list None) (env st)) st)
  | Instr_MERGE lineNo from tolist =>
    if negb (exists_ from (env st))
    then throw Undefined lineNo ": Undefined identifier: " from st
    else if negb (exists_ tolist (env st))
    then throw Undefined lineNo ": Undefined list identifier: " tolist st
    else
      src ← env st !! from;
      '(vfrom, h1) ← deep_copy fuel src (heap st);
      let st1 := with_heap h1 st in
      target ← env st1 !! tolist;
      match Value.type target with
      | VT_INT => throw NotAList lineNo ": MERGE target is not a list: " tolist st1
      | VT_LIST =>
        let old := Value.list target in
        let '(newhead, h2) := make_shared vfrom old h1 in
        Some (Ok (pc + 1)%Z,
              with_env (set tolist (make_list newhead) (env st1)) (with_heap h2 st1))
      end
  | Instr_COPY lineNo src dst =>
    if negb (exists_ src (env st))
    then throw Undefined lineNo ": Undefined source: " src st
    else
      val ← env st !! src;
      match Value.type val with
      | VT_INT => throw NotAList lineNo ": COPY source is not a list: " src st
      | VT_LIST =>
        '(copy, h1) ← deep_copy fuel val (heap st);
        Some (Ok (pc + 1)%Z, with_env (set dst copy (env st)) (with_heap h1 st))
      end
  | Instr_HEAD lineNo listid id =>
    if negb (exists_ listid (env st))
    then throw Undefined lineNo ": Undefined list: " listid st
    else
      lv ← env st !! listid;
      match Value.type lv with
      | VT_INT => throw NotAList lineNo ": HEAD target not a list: " listid st
      | VT_LIST =>
        match Value.list lv with
        | None => throw EmptyList lineNo ": HEAD on empty list: " listid st
        | Some a =>
          node ← heap st !! a;
          '(headval, h1) ← deep_copy fuel (ListNode.v node) (heap st);
          Some (Ok (pc + 1)%Z, with_env (set id headval (env st)) (with_heap h1 st))
        end
      end
  | Instr_TAIL lineNo src dst =>
    if negb (exists_ src (env st))
    then throw Undefined lineNo ": Undefined list: " src st
    else
      sv ← env st !! src;
      match Value.type sv with
      | VT_INT => throw NotAList lineNo ": TAIL source not a list: " src st
      | VT_LIST =>
        match Value.list sv with
        | None => Some (Ok (pc + 1)%Z, with_env (set dst (make_list None) (env st)) st)
        | Some a =>
          node ← heap st !! a;
          '(newHead, h1) ← copy_nodes (deep_copy fuel) fuel (ListNode.next node)
                             None None (heap st);
          Some (Ok (pc + 1)%Z,
                with_env (set dst (make_list newHead) (env st)) (with_heap h1 st))
        end
      end
  | Instr_ASSIGN lineNo id val =>
    if exists_ id (env st) then
      existing ← env st !! id;
      match Value.type existing with
      | VT_LIST => throw TypeMismatch lineNo ": ASSIGN to non-int: " id st
      | VT_INT =>
        Some (Ok (pc + 1)%Z,
              with_env (<[id := Value.mk (Value.type existing) val (Value.list existing)]>
                          (env st)) st)
      end
    else Some (Ok (pc + 1)%Z, with_env (set id (make_int val) (env st)) st)
  | Instr_CHS lineNo id =>
    if negb (exists_ id (env st))
    then throw Undefined lineNo ": CHS undefined id: " id st
    else
      val ← env st !! id;
      match Value.type val with
      | VT_LIST => throw TypeMismatch lineNo ": CHS on non-int: " id st
      | VT_INT =>
        Some (Ok (pc + 1)%Z,
              with_env (<[id := Value.mk (Value.type val) (wrap64 (- Value.ival val))
                                         (Value.list val)]> (env st)) st)
      end
  | Instr_ADD lineNo a b =>
    if negb (exists_ a (env st))
    then throw Undefined lineNo ": ADD undefined id: " a st
    else if negb (exists_ b (env st))
    then throw Undefined lineNo ": ADD undefined id: " b st
    else
      va ← env st !! a;
      vb ← env st !! b;
      match Value.type va, Value.type vb with
      | VT_INT, VT_INT =>
        Some (Ok (pc + 1)%Z,
              with_env (<[a := Value.mk (Value.type va)
                                        (wrap64 (Value.ival va + Value.ival vb))
                                        (Value.list va)]> (env st)) st)
      | _, _ => throw TypeMismatch lineNo ": ADD type error" "" st
      end
  | Instr_IF lineNo id target =>
    if negb (exists_ id (env st))
    then throw Undefined lineNo ": IF undefined id: " id st
    else
      val ← env st !! id;
      let cond :=
        match Value.type val with
        | VT_INT => (Value.ival val =? 0)%Z
        | VT_LIST => bool_decide (Value.list val = None)
        end in
      if cond then
        if ((target <? 1) || (target >? Z.of_nat (length program)))%Z
        then throw JumpOutOfRange lineNo ": IF jump out of range: " (to_string target) st
        else Some (Ok target, st)
      else Some (Ok (pc + 1)%Z, st)
  | Instr_HLT _ => Some (Ok (-1)%Z, st)
  | NOP _ => Some (Ok (pc + 1)%Z, st)
  end.

(** ** Driver *)

(** How [run_program] leaves its loop: by [break] (halt, or the program
    counter past the last line) or by the [return] of the [catch] block. *)
Inductive Exit :=
| Halted (st : Store)
| Failed (e : runtime_error) (st : Store).

(** The loop of [run_program].  [steps] bounds the number of instructions
    that are executed, [fuel] is handed to each of them. *)
Fixpoint run_loop (steps fuel : nat) (prog : list Instruction) (pc : Z) (st : Store)
  : option Exit :=
  if (pc <? 1)%Z then Some (Halted st)
  else if (pc >? Z.of_nat (length prog))%Z then Some (Halted st)
  else
    match steps with
    | O => None
    | S steps' =>
      ins ← prog !! Z.to_nat (pc - 1);
      '(r, st') ← execute fuel ins pc prog st;
      match r with
      | Ok next => if (next =? -1)%Z then Some (Halted st')
                   else run_loop steps' fuel prog next st'
      | Throw e => Some (Failed e st')
      end
    end.

(** The names of the table in ascending order: [sort(names.begin(), names.end())]
    with [operator<] of [std::string]. *)
Definition sorted_names (e : Env) : list string :=
  merge_sort String.le (map_to_list e).*1.

(** One line of the final report, without its newline. *)
Definition report_line (fuel : nat) (st : Store) (n : string) : option string :=
  val ← env st !! n;
  s ← match Value.type val with
      | VT_INT => Some (to_string (Value.ival val))
      | VT_LIST => list_to_string fuel (heap st) (Value.list val)
      end;
  Some (n +:+ " = " +:+ s).

Definition final_report (fuel : nat) (st : Store) : option (list string) :=
  mapM (report_line fuel st) (sorted_names (env st)).

(** What a run writes: the lines on [cout] and the lines on [cerr]. *)
Record Output := mkOutput { out : list string; err : list string }.

Definition run_program (steps fuel : nat) (prog : list Instruction) (st : Store)
  : option (Output * Store) :=
  ex ← run_loop steps fuel prog 1 st;
  match ex with
  | Failed e st' => Some ({| out := []; err := ["Runtime error: " +:+ what e] |}, st')
  | Halted st' =>
    lines ← final_report fuel st';
    Some ({| out := lines; err := [] |}, st')
  end.

(** ** Loader and parser *)

(** [isspace], [isalpha], [isalnum] of the "C" locale, on the character code. *)
Definition isspace (c : ascii) : bool :=
  let n := N_of_ascii c in ((n =? 32) || ((9 <=? n) && (n <=? 13)))%N.
Definition isdigit (c : ascii) : bool :=
  let n := N_of_ascii c in ((48 <=? n) && (n <=? 57))%N.
Definition isalpha (c : ascii) : bool :=
  let n := N_of_ascii c in
  (((65 <=? n) && (n <=? 90)) || ((97 <=? n) && (n <=? 122)))%N.
Definition isalnum (c : ascii) : bool := isalpha c || isdigit c.

Abbreviation Tokens := (list string).

(** [tokenize]: [iss >> w] skips white space and reads up to the next white
    space.  [cur] is the word being read, if any. *)
Fixpoint tokenize_from (cur : option string) (line : string) : Tokens :=
  match line with
  | EmptyString => match cur with Some w => [w] | None => [] end
  | String c rest =>
    if isspace c
    then match cur with
         | Some w => w :: tokenize_from None rest
         | None => tokenize_from None rest
         end
    else tokenize_from (Some (default "" cur +:+ String c "")) rest
  end.
Definition tokenize (line : string) : Tokens := tokenize_from None line.

(** The digits that [stoll] consumes, most significant first: the value read
    so far and the number of characters consumed. *)
Fixpoint read_digits (s : string) (acc : Z) (k : nat) : Z * nat :=
  match s with
  | String c rest =>
    if isdigit c
    then read_digits rest (10 * acc + Z.of_N (N_of_ascii c - 48))%Z (S k)
    else (acc, k)
  | EmptyString => (acc, k)
  end.

Fixpoint skip_space (s : string) (k : nat) : string * nat :=
  match s with
  | String c rest => if isspace c then skip_space rest (S k) else (s, k)
  | EmptyString => (s, k)
  end.

(** [stoll(s, &idx, 10)]: optional white space, optional sign, at least one
    digit.  [None] stands for the two exceptions ([invalid_argument] when no
    digit is there, [out_of_range] when the number does not fit). *)
Definition stoll (s : string) : option (Z * nat) :=
  let '(s1, k1) := skip_space s 0 in
  let '(neg, s2, k2) :=
    match s1 with
    | String "-" rest => (true, rest, S k1)
    | String "+" rest => (false, rest, S k1)
    | _ => (false, s1, k1)
    end in
  let '(n, k3) := read_digits s2 0 k2 in
  if decide (k3 = k2) then None
  else
    let val := if neg then (- n)%Z else n in
    if decide (- 2 ^ 63 ≤ val < 2 ^ 63)%Z then Some (val, k3) else None.

(** [to_int_const(s, ok)]: the value returned and the flag [ok]. *)
Definition to_int_const (s : string) : Z * bool :=
  match stoll s with
  | Some (val, idx) => (val, bool_decide (idx = String.length s))
  | None => (0%Z, false)
  end.

(** The cast [(int)] of a [long long]. *)
Definition wrap32 (n : Z) : Z := ((n + 2 ^ 31) mod 2 ^ 32 - 2 ^ 31)%Z.

(** [is_identifier] *)
Definition is_identifier (s : string) : bool :=
  match s with
  | EmptyString => false
  | String c0 _ =>
    if negb (isalpha c0) && negb (bool_decide (c0 = "_"%char)) then false
    else forallb (fun c => isalnum c || bool_decide (c = "_"%char)) (list_ascii_of_string s)
  end.

Definition parse_error {A} (lineno : Z) (msg arg : string) : Res A :=
  Throw {| kind := ParseError; what := line_msg lineno msg arg |}.

(** [t[i]] *)
Definition tok (t : Tokens) (i : nat) : string := default "" (t !! i).

(** [parse_line]: [Ok None] is the [nullptr] returned for a blank line. *)
Definition parse_line (line : string) (lineno : Z) : Res (option Instruction) :=
  let t := tokenize line in
  match t with
  | [] => Ok None
  | op :: _ =>
    if String.eqb op "INTEGER" then
      if negb (length t =? 2) then parse_error lineno ": INTEGER requires exactly one argument" ""
      else if negb (is_identifier (tok t 1)) then parse_error lineno ": invalid identifier: " (tok t 1)
      else Ok (Some (Instr_INTEGER lineno (tok t 1)))
    else if String.eqb op "LIST" then
      if negb (length t =? 2) then parse_error lineno ": LIST requires exactly one argument" ""
      else if negb (is_identifier (tok t 1)) then parse_error lineno ": invalid identifier: " (tok t 1)
      else Ok (Some (Instr_LIST lineno (tok t 1)))
    else if String.eqb op "MERGE" then
      if negb (length t =? 3) then parse_error lineno ": MERGE requires two arguments" ""
      else Ok (Some (Instr_MERGE lineno (tok t 1) (tok t 2)))
    else if String.eqb op "COPY" then
      if negb (length t =? 3) then parse_error lineno ": COPY requires two arguments" ""
      else Ok (Some (Instr_COPY lineno (tok t 1) (tok t 2)))
    else if String.eqb op "HEAD" then
      if negb (length t =? 3) then parse_error lineno ": HEAD requires two arguments" ""
      else Ok (Some (Instr_HEAD lineno (tok t 1) (tok t 2)))
    else if String.eqb op "TAIL" then
      if negb (length t =? 3) then parse_error lineno ": TAIL requires two arguments" ""
      else Ok (Some (Instr_TAIL lineno (tok t 1) (tok t 2)))
    else if String.eqb op "ASSIGN" then
      if negb (length t =? 3) then parse_error lineno ": ASSIGN requires two arguments" ""
      else
        let '(val, ok) := to_int_const (tok t 2) in
        if negb ok then parse_error lineno ": ASSIGN needs integer constant, got: " (tok t 2)
        else Ok (Some (Instr_ASSIGN lineno (tok t 1) val))
    else if String.eqb op "CHS" then
      if negb (length t =? 2) then parse_error lineno ": CHS requires one argument" ""
      else Ok (Some (Instr_CHS lineno (tok t 1)))
    else if String.eqb op "ADD" then
      if negb (length t =? 3) then parse_error lineno ": ADD requires two arguments" ""
      else Ok (Some (Instr_ADD lineno (tok t 1) (tok t 2)))
    else if String.eqb op "IF" then
      if negb (length t =? 3) then parse_error lineno ": IF requires two arguments" ""
      else
        let '(val, ok) := to_int_const (tok t 2) in
        let target := wrap32 val in
        if negb ok || (target <=? 0)%Z
        then parse_error lineno ": IF target must be positive integer" ""
        else Ok (Some (Instr_IF lineno (tok t 1) target))
    else if String.eqb op "HLT" then
      if negb (length t =? 1) then parse_error lineno ": HLT takes no arguments" ""
      else Ok (Some (Instr_HLT lineno))
    else parse_error lineno ": Unknown operation: " op
  end.

(** The lines that successive [std::getline] calls deliver. *)
Fixpoint getlines_from (cur : string) (s : string) : list string :=
  match s with
  | EmptyString => if decide (cur = "") then [] else [cur]
  | String c rest =>
    if decide (c = "010"%char) then cur :: getlines_from "" rest
    else getlines_from (cur +:+ String c "") rest
  end.
Definition getlines (s : string) : list string := getlines_from "" s.

(** Membership in the set [" \t\r\n"] that [load_program] trims. *)
Definition is_trim_char (c : ascii) : bool :=
  let n := N_of_ascii c in ((n =? 32) || (n =? 9) || (n =? 13) || (n =? 10))%N.

(** [line.substr(start, end - start + 1)] with [start] and [end] the first and
    last position that hold no trim character; [None] when there is none. *)
Fixpoint drop_trim (s : string) : string :=
  match s with
  | String c rest => if is_trim_char c then drop_trim rest else s
  | EmptyString => s
  end.
Definition trim (line : string) : option string :=
  match drop_trim line with
  | EmptyString => None
  | s => Some (String.rev (drop_trim (String.rev s)))
  end.

(** The reading loop of [load_program]: [lineno] is the number of the line
    before the first of [lines]. *)
Fixpoint load_lines (lines : list string) (lineno : Z) : Res (list (option Instruction)) :=
  match lines with
  | [] => Ok []
  | line :: rest =>
    let lineno := (lineno + 1)%Z in
    match trim line with
    | None =>
      match load_lines rest lineno with
      | Ok prog => Ok (None :: prog)
      | Throw e => Throw e
      end
    | Some trimmed =>
      match parse_line trimmed lineno with
      | Throw e => Throw e
      | Ok ins =>
        match load_lines rest lineno with
        | Ok prog => Ok (ins :: prog)
        | Throw e => Throw e
        end
      end
    end
  end.

(** The second loop of [load_program]: [prog[i] = new NOP(i+1)] on every
    [nullptr]. *)
Definition fill_nops (prog : list (option Instruction)) : list Instruction :=
  imap (fun i o => default (NOP (Z.of_nat i + 1)) o) prog.

(** [load_program]; [fs] maps a file name to the content of the file, if it
    can be opened. *)
Definition load_program (fs : string -> option string) (filename : string)
  : Res (list Instruction) :=
  match fs filename with
  | None => Throw {| kind := CannotOpen; what := "Unable to open file: " +:+ filename |}
  | Some content =>
    match load_lines (getlines content) 0 with
    | Throw e => Throw e
    | Ok prog => Ok (fill_nops prog)
    end
  end.

Definition empty_store : Store := {| heap := []; env := ∅ |}.

(** [main]: [argv] holds the program name and the arguments, so [argc] is
    its length.  The result is the exit code and what was written. *)
Definition main (steps fuel : nat) (fs : string -> option string) (argv : list string)
  : option (Z * Output) :=
  if negb (length argv =? 2)
  then Some (1%Z, {| out := []; err := ["Usage: ppl <program-file>"] |})
  else
    let fname := tok argv 1 in
    match load_program fs fname with
    | Throw e => Some (1%Z, {| out := []; err := ["Error loading program: " +:+ what e] |})
    | Ok prog =>
      '(o, _) ← run_program steps fuel prog empty_store;
      Some (0%Z, o)
    end.

(** ** What a store denotes *)

(** The mathematical value that a [Value] stands for once the pointers are
    followed: an integer or the sequence of the elements of a list, from the
    head to the tail. *)
#[local] Unset Elimination Schemes.
Inductive AVal :=
| AInt (n : Z)
| AList (xs : list AVal).
#[local] Set Elimination Schemes.

Fixpoint aval_size (x : AVal) : nat :=
  match x with
  | AInt _ => 1
  | AList xs => S (sum_list (aval_size <$> xs))
  end.

Section lseg.
  Context (R : AVal -> Value -> Prop) (lo hi : nat) (h : Heap).

(** The chain that starts at [p] reaches [q] after the nodes that hold [xs],
    and every node of it lives at an address in [[lo, hi)]. *)
Fixpoint lseg (xs : list AVal) (p q : ListPtr) : Prop :=
  match xs with
  | [] => p = q
  | x :: xs' =>
    ∃ a node, p = Some a ∧ lo ≤ a < hi ∧ h !! a = Some node ∧
              R x (ListNode.v node) ∧ lseg xs' (ListNode.next node) q
  end.
End lseg.

(** [val] denotes [x] in the store [h], through nodes in [[lo, hi)] only. *)
Fixpoint val_repr (lo hi : nat) (h : Heap) (x : AVal) (val : Value) : Prop :=
  match x with
  | AInt n => Value.type val = VT_INT ∧ Value.ival val = n
  | AList xs =>
    Value.type val = VT_LIST ∧ lseg (val_repr lo hi h) lo hi h xs (Value.list val) None
  end.

Definition list_repr (lo hi : nat) (h : Heap) (xs : list AVal) (p q : ListPtr) : Prop :=
  lseg (val_repr lo hi h) lo hi h xs p q.

(** Every variable denotes something: no pointer of the table or of a node
    it reaches dangles, and no chain is cyclic. *)
Definition wf (st : Store) : Prop :=
  ∀ id val, env st !! id = Some val →
            ∃ x, val_repr 0 (length (heap st)) (heap st) x val.

(** [id] is declared and denotes [x]. *)
Definition denotes (st : Store) (id : string) (x : AVal) : Prop :=
  ∃ val, env st !! id = Some val ∧ val_repr 0 (length (heap st)) (heap st) x val.

(** The store [h'] still has every node of [h], unchanged. *)
Definition extends (h h' : Heap) : Prop :=
  ∀ a node, h !! a = Some node → h' !! a = Some node.

(** The state in which the loop of [copy_nodes] finds the chain it builds:
    nothing yet, or a chain from [head] whose last node is the one at [pp],
    which still has a null [next]. *)
Definition built (base : nat) (h : Heap) (done : list AVal) (pp : option addr)
    (head : ListPtr) : Prop :=
  match pp with
  | None => head = None ∧ done = []
  | Some p =>
    ∃ done' xl nodep, done = done' ++ [xl] ∧ base ≤ p < length h ∧
      list_repr base p h done' head (Some p) ∧ h !! p = Some nodep ∧
      ListNode.next nodep = None ∧ val_repr base p h xl (ListNode.v nodep)
  end.

(** What [copy_nodes] needs from the function that copies one element: on
    a store that extends [h0], an element that denotes [x] in [h0] is copied
    to fresh nodes that denote [x] again; [bad x] when it gives up. *)
Definition elem_ok (copy_elem : Value → Heap → option (Value * Heap)) (bad : AVal → Prop)
    (lo hi : nat) (h0 : Heap) (x : AVal) : Prop :=
  ∀ cv h1, extends h0 h1 → val_repr lo hi h0 x cv →
    match copy_elem cv h1 with
    | Some (vc, h2) => extends h1 h2 ∧ val_repr (length h1) (length h2) h2 x vc
    | None => bad x
    end.

(** The rendering rules as the specification words them: an integer is its
    decimal text, a list is its elements between brackets, separated by a
    comma and a space, in order. *)
Fixpoint join (sep : string) (l : list string) : string :=
  match l with
  | [] => ""
  | [e] => e
  | e :: es => e +:+ sep +:+ join sep es
  end.

Fixpoint render (x : AVal) : string :=
  match x with
  | AInt n => to_string n
  | AList xs => "[" +:+ join ", " (render <$> xs) +:+ "]"
  end.

(** What the loop of [list_to_string] appends for the elements that follow
    the first. *)
Definition render_rest (xs : list AVal) : string :=
  foldr (fun x acc => ", " +:+ render x +:+ acc) "" xs.

(** The identifier that an instruction may bind or rebind. *)
Definition target_of (ins : Instruction) : option string :=
  match ins with
  | Instr_INTEGER _ id | Instr_LIST _ id | Instr_ASSIGN _ id _ | Instr_CHS _ id => Some id
  | Instr_MERGE _ _ dst | Instr_COPY _ _ dst | Instr_TAIL _ _ dst => Some dst
  | Instr_HEAD _ _ id => Some id
  | Instr_ADD _ a _ => Some a
  | Instr_IF _ _ _ | Instr_HLT _ | NOP _ => None
  end.

(** The store that a run ends with. *)
Definition exit_store (ex : Exit) : Store :=
  match ex with Halted st | Failed _ st => st end.

(** The run gets from line [pc] with store [st] to line [pc'] with store
    [st'] by executing instructions that neither throw nor halt. *)
Inductive steps_to (fuel : nat) (prog : list Instruction) : Z → Store → Z → Store → Prop :=
| steps_to_refl pc st : steps_to fuel prog pc st pc st
| steps_to_step pc st ins next st1 pc' st' :
    (1 ≤ pc)%Z → prog !! Z.to_nat (pc - 1) = Some ins →
    execute fuel ins pc prog st = Some (Ok next, st1) → next ≠ (-1)%Z →
    steps_to fuel prog next st1 pc' st' →
    steps_to fuel prog pc st pc' st'.

(** The jump condition of [IF]: [Int(0)] or the empty list. *)
Definition falsy (val : Value) : bool :=
  match Value.type val with
  | VT_INT => (Value.ival val =? 0)%Z
  | VT_LIST => bool_decide (Value.list val = None)
  end.

(** ** Programs used as test cases *)

Definition scenario_B : list Instruction :=
  [Instr_LIST 1 "l"; Instr_INTEGER 2 "a"; Instr_ASSIGN 3 "a" 1; Instr_MERGE 4 "a" "l";
   Instr_ASSIGN 5 "a" 2; Instr_MERGE 6 "a" "l"; Instr_HLT 7].

Definition scenario_B_text : string :=
  "LIST l
INTEGER a
ASSIGN a 1
MERGE a l
ASSIGN a 2
MERGE a l
HLT
".

(** The store in which scenario B ends: the node merged second points at
    the node merged first. *)
Definition scenario_B_final : Store :=
  {| heap := [ListNode.mk (make_int 1) None; ListNode.mk (make_int 2) (Some 0)];
     env := <["a" := make_int 2]> (<["l" := make_list (Some 1)]> ∅) |}.

Definition scenario_D_text : string :=
  "LIST l
INTEGER h
HEAD l h
HLT
".

Definition scenario_D : list Instruction :=
  [Instr_LIST 1 "l"; Instr_INTEGER 2 "h"; Instr_HEAD 3 "l" "h"; Instr_HLT 4].

(** A run that declares, assigns and merges numbers of several digits and of
    both signs. *)
Definition scenario_signs : list Instruction :=
  [Instr_LIST 1 "l"; Instr_INTEGER 2 "a"; Instr_ASSIGN 3 "a" (-120);
   Instr_MERGE 4 "a" "l"; Instr_LIST 5 "m"; Instr_ASSIGN 6 "b" 9007;
   Instr_MERGE 7 "b" "m"; Instr_MERGE 8 "l" "m"; Instr_HLT 9].

(** ** Machine integers *)

(** The values of [long long]. *)
Definition int64 (n : Z) : Prop := (- 2 ^ 63 ≤ n < 2 ^ 63)%Z.

(** Every integer field of the table and of the nodes holds a [long long]. *)
Definition heap_ints (h : Heap) : Prop :=
  ∀ a node, h !! a = Some node → int64 (Value.ival (ListNode.v node)).

Definition ints_in_range (st : Store) : Prop :=
  (∀ id val, env st !! id = Some val → int64 (Value.ival val)) ∧ heap_ints (heap st).

(** The literal of an [ASSIGN] is a [long long] (the type of the member
    [Instr_ASSIGN::val]). *)
Definition literal_in_range (ins : Instruction) : Prop :=
  match ins with
  | Instr_ASSIGN _ _ val => int64 val
  | _ => True
  end.

(** ** Words *)

(** Every character of [s] passes the test [P]. *)
Fixpoint string_forall (P : ascii → bool) (s : string) : bool :=
  match s with
  | EmptyString => true
  | String c rest => P c && string_forall P rest
  end.

(** A word: at least one character, none of them white space. *)
Definition word (s : string) : Prop :=
  s ≠ "" ∧ string_forall (λ c, negb (isspace c)) s = true.

(** The text of a file whose lines are [ls], each ended by a newline. *)
Fixpoint unlines (ls : list string) : string :=
  match ls with
  | [] => ""
  | l :: rest => l +:+ String "010" (unlines rest)
  end.

(** ** Decimal text *)

(** The ten digits, in the order of the numbers they stand for. *)
Definition decimal_digits : list ascii :=
  ["0"; "1"; "2"; "3"; "4"; "5"; "6"; "7"; "8"; "9"]%char.

(** The number a digit stands for: its place among the ten. *)
Definition digit_value (c : ascii) : option Z :=
  (λ p, Z.of_nat p.1) <$> list_find (λ d, d = c) decimal_digits.

(** The number a run of digits stands for, the most significant first, after
    the digits that gave [acc]. *)
Fixpoint digits_value (s : string) (acc : Z) : option Z :=
  match s with
  | EmptyString => Some acc
  | String c rest => d ← digit_value c; digits_value rest (10 * acc + d)%Z
  end.

(** [s] is the decimal text of [n]: a minus sign if [n] is negative, then the
    digits of its absolute value, at least one, and no zero in front of
    another digit. *)
Definition decimal_text (n : Z) (s : string) : Prop :=
  ∃ ds, s = (if (n <? 0)%Z then "-" else "") +:+ ds ∧
        ds ≠ "" ∧
        digits_value ds 0 = Some (Z.abs n) ∧
        (∀ rest, ds = String "0" rest → rest = "").

(** * Properties *)

(** ** The store only grows *)

Arguments make_shared : simpl never.
Arguments store_pp : simpl never.
Arguments set_next : simpl never.

Lemma extends_refl h : extends h h.
Proof. by intros a node. Qed.

Lemma extends_trans h1 h2 h3 : extends h1 h2 → extends h2 h3 → extends h1 h3.
Proof. intros H12 H23 a node Ha. by apply H23, H12. Qed.

Lemma extends_length h h' : extends h h' → length h ≤ length h'.
Proof.
  intros Hext. destruct (decide (length h = 0)) as [->|Hne]; [lia|].
  destruct (lookup_lt_is_Some_2 h (pred (length h))) as [node Hl]; [lia|].
  apply Hext, lookup_lt_Some in Hl. lia.
Qed.

Lemma extends_app h l : extends h (h ++ l).
Proof. intros a node Ha. by apply lookup_app_l_Some. Qed.

Lemma extends_make_shared val nx h p h' :
  make_shared val nx h = (p, h') →
  p = Some (length h) ∧ extends h h' ∧ length h' = S (length h) ∧
  h' !! length h = Some (ListNode.mk val nx).
Proof.
  unfold make_shared. intros [= <- <-]. split_and!; [done|apply extends_app|..].
  - rewrite length_app. simpl. lia.
  - rewrite lookup_app_r by lia. by rewrite Nat.sub_diag.
Qed.

Lemma set_next_length p q h : length (set_next p q h) = length h.
Proof. unfold set_next. destruct (h !! p); [apply length_insert|done]. Qed.

Lemma set_next_lookup_ne p q h a : a ≠ p → set_next p q h !! a = h !! a.
Proof.
  intros Hne. unfold set_next. destruct (h !! p); [|done].
  by apply list_lookup_insert_ne.
Qed.

Lemma set_next_lookup_eq p q h node :
  h !! p = Some node → set_next p q h !! p = Some (ListNode.mk (ListNode.v node) q).
Proof.
  intros Hp. unfold set_next. rewrite Hp.
  apply list_lookup_insert_eq. by eapply lookup_lt_Some.
Qed.

(** ** Denotations are stable *)

Lemma AVal_ind (P : AVal → Prop) :
  (∀ n, P (AInt n)) → (∀ xs, Forall P xs → P (AList xs)) → ∀ x, P x.
Proof.
  intros Hint Hlist. fix IH 1. intros [n|xs]; [apply Hint|].
  apply Hlist. revert xs. fix IHxs 1. intros [|x xs]; constructor.
  - apply IH.
  - apply IHxs.
Qed.

Lemma aval_size_pos x : 1 ≤ aval_size x.
Proof. destruct x; simpl; lia. Qed.

Lemma aval_size_elem x xs : x ∈ xs → aval_size x ≤ sum_list (aval_size <$> xs).
Proof.
  induction 1 as [x l|x y l _ IH].
  - change (aval_size x ≤ aval_size x + sum_list (aval_size <$> l)). lia.
  - change (aval_size x ≤ aval_size y + sum_list (aval_size <$> l)). lia.
Qed.

Lemma aval_size_length xs : length xs ≤ sum_list (aval_size <$> xs).
Proof.
  induction xs as [|x xs IH]; [done|].
  change (S (length xs) ≤ aval_size x + sum_list (aval_size <$> xs)).
  pose proof (aval_size_pos x). lia.
Qed.

Lemma lseg_impl R R' lo hi lo' hi' (h h' : Heap) xs :
  lo' ≤ lo → hi ≤ hi' → (∀ a, lo ≤ a < hi → h' !! a = h !! a) →
  Forall (λ x, ∀ w, R x w → R' x w) xs →
  ∀ p q, lseg R lo hi h xs p q → lseg R' lo' hi' h' xs p q.
Proof.
  intros Hlo Hhi Hagree. induction 1 as [|x xs Hx _ IH]; intros p q; simpl; [done|].
  intros (a & node & -> & Ha & Hnode & Hv & Hrest).
  exists a, node. split_and!; [done|lia|lia| |by apply Hx|by apply IH].
  by rewrite Hagree.
Qed.

Lemma val_repr_frame x : ∀ lo hi lo' hi' (h h' : Heap) val,
  lo' ≤ lo → hi ≤ hi' → (∀ a, lo ≤ a < hi → h' !! a = h !! a) →
  val_repr lo hi h x val → val_repr lo' hi' h' x val.
Proof.
  induction x as [n|xs IH] using AVal_ind; intros lo hi lo' hi' h h' val Hlo Hhi Hagree;
    simpl; [done|].
  intros [Hty Hseg]. split; [done|].
  eapply lseg_impl; [done..| |done].
  eapply Forall_impl; [exact IH|]. simpl. intros y Hy w. by apply Hy.
Qed.

Lemma list_repr_frame lo hi lo' hi' (h h' : Heap) xs p q :
  lo' ≤ lo → hi ≤ hi' → (∀ a, lo ≤ a < hi → h' !! a = h !! a) →
  list_repr lo hi h xs p q → list_repr lo' hi' h' xs p q.
Proof.
  intros Hlo Hhi Hagree. unfold list_repr. apply lseg_impl; [done..|].
  apply Forall_forall. intros x _ w. by apply val_repr_frame.
Qed.

Lemma extends_agree (h h' : Heap) lo hi :
  extends h h' → hi ≤ length h → ∀ a, lo ≤ a < hi → h' !! a = h !! a.
Proof.
  intros Hext Hhi a Ha.
  destruct (lookup_lt_is_Some_2 h a) as [node Hnode]; [lia|].
  rewrite Hnode. by apply Hext.
Qed.

Lemma val_repr_extends lo hi (h h' : Heap) x val :
  extends h h' → hi ≤ length h → val_repr lo hi h x val → val_repr lo hi h' x val.
Proof. intros Hext Hhi. apply val_repr_frame; [done..|]. by eapply extends_agree. Qed.

Lemma list_repr_extends lo hi (h h' : Heap) xs p q :
  extends h h' → hi ≤ length h → list_repr lo hi h xs p q → list_repr lo hi h' xs p q.
Proof. intros Hext Hhi. apply list_repr_frame; [done..|]. by eapply extends_agree. Qed.

Lemma val_repr_widen lo hi lo' hi' (h : Heap) x val :
  lo' ≤ lo → hi ≤ hi' → val_repr lo hi h x val → val_repr lo' hi' h x val.
Proof. intros Hlo Hhi. by apply val_repr_frame. Qed.

Lemma list_repr_widen lo hi lo' hi' (h : Heap) xs p q :
  lo' ≤ lo → hi ≤ hi' → list_repr lo hi h xs p q → list_repr lo' hi' h xs p q.
Proof. intros Hlo Hhi. by apply list_repr_frame. Qed.

Lemma lseg_snoc R lo hi (h : Heap) xs x a node :
  lo ≤ a < hi → h !! a = Some node → R x (ListNode.v node) →
  ∀ p, lseg R lo hi h xs p (Some a) → lseg R lo hi h (xs ++ [x]) p (ListNode.next node).
Proof.
  intros Ha Hnode Hx. induction xs as [|y ys IH]; intros p; simpl.
  - intros ->. by exists a, node.
  - intros (b & nb & -> & Hb & Hnb & Hy & Hrest).
    exists b, nb. split_and!; [done|lia|lia|done|done|]. by apply IH.
Qed.

Lemma lseg_null_inv R lo hi (h : Heap) xs : lseg R lo hi h xs None None → xs = [].
Proof. destruct xs as [|x0 xs0]; [done|]. by intros (a & node & [=] & _). Qed.

(** A sound value is the same value in [[0, hi)] for every [hi] up to the
    size of the store. *)
Lemma val_repr_make_int lo hi h n : val_repr lo hi h (AInt n) (make_int n).
Proof. done. Qed.

Lemma val_repr_int_inv lo hi h x val :
  Value.type val = VT_INT → val_repr lo hi h x val → x = AInt (Value.ival val).
Proof. intros Hty. destruct x; simpl; intros [H1 H2]; congruence. Qed.

Lemma val_repr_list_inv lo hi h x val :
  Value.type val = VT_LIST → val_repr lo hi h x val →
  ∃ xs, x = AList xs ∧ list_repr lo hi h xs (Value.list val) None.
Proof. intros Hty. destruct x; simpl; intros [H1 H2]; [congruence|eauto]. Qed.

(** ** The copy loop *)

Section copy_nodes.
  Context (copy_elem : Value → Heap → option (Value * Heap)) (bad : AVal → Prop).
  Context (lo hi : nat) (h0 : Heap) (Hhi : hi ≤ length h0).

Lemma built_finish h done pp head :
  built (length h0) h done pp head →
  list_repr (length h0) (length h) h done head None.
Proof.
  destruct pp as [p|]; simpl.
  - intros (done' & xl & nodep & -> & Hp & Hseg & Hnode & Hnext & Hxl).
    rewrite <- Hnext. unfold list_repr. eapply lseg_snoc; [exact Hp|exact Hnode|..].
    + eapply val_repr_widen; [| |exact Hxl]; lia.
    + eapply list_repr_widen; [| |exact Hseg]; lia.
  - by intros [-> ->].
Qed.

Lemma built_step h done pp head h1 x vc fresh h2 head' h3 :
  extends h0 h → extends h h1 →
  built (length h0) h done pp head →
  val_repr (length h) (length h1) h1 x vc →
  make_shared vc None h1 = (fresh, h2) →
  store_pp pp fresh head h2 = (head', h3) →
  extends h0 h3 ∧ built (length h0) h3 (done ++ [x]) fresh head'.
Proof.
  intros Hext0 Hext1 Hbuilt Hvc Hms Hst.
  apply extends_make_shared in Hms as (-> & Hext2 & Hlen2 & Hfresh).
  pose proof (extends_length _ _ Hext0) as Hl0.
  pose proof (extends_length _ _ Hext1) as Hl1.
  destruct pp as [p|]; unfold store_pp in Hst; simpl in Hbuilt.
  - destruct Hbuilt as (done' & xl & nodep & -> & Hp & Hseg & Hnode & Hnext & Hxl).
    injection Hst as <- <-.
    assert (Hp2 : h2 !! p = Some nodep) by by apply Hext2, Hext1.
    assert (Hagree : ∀ a, a ≠ p → a < length h → set_next p (Some (length h1)) h2 !! a = h !! a).
    { intros a Hne Ha. rewrite set_next_lookup_ne by done.
      destruct (lookup_lt_is_Some_2 h a Ha) as [na Hna]. rewrite Hna.
      by apply Hext2, Hext1. }
    split.
    + intros a node Ha. rewrite set_next_lookup_ne.
      * by apply Hext2, Hext1, Hext0.
      * apply lookup_lt_Some in Ha. lia.
    + simpl. exists (done' ++ [xl]), x, (ListNode.mk vc None).
      rewrite set_next_length, Hlen2. split_and!; [done|lia|lia| | |done|].
      * change (Some (length h1)) with
          (ListNode.next (ListNode.mk (ListNode.v nodep) (Some (length h1)))).
        unfold list_repr. eapply lseg_snoc.
        -- split; [apply Hp|lia].
        -- by apply set_next_lookup_eq.
        -- simpl. eapply val_repr_frame; [| | |exact Hxl]; [lia|lia|].
           intros a Ha. apply Hagree; lia.
        -- eapply list_repr_frame; [| | |exact Hseg]; [lia|lia|].
           intros a Ha. apply Hagree; lia.
      * rewrite set_next_lookup_ne by lia. done.
      * simpl. eapply val_repr_frame; [| | |exact Hvc]; [lia|lia|].
        intros a Ha. rewrite set_next_lookup_ne by lia.
        destruct (lookup_lt_is_Some_2 h1 a) as [na Hna]; [lia|].
        rewrite Hna. by apply Hext2.
  - destruct Hbuilt as [-> ->]. injection Hst as <- <-.
    split; [by eapply extends_trans; [|eapply extends_trans]|].
    simpl. exists [], x, (ListNode.mk vc None).
    rewrite Hlen2. split_and!; [done|lia|lia|done|done|done|].
    simpl. eapply val_repr_frame; [| | |exact Hvc]; [lia|lia|].
    intros a Ha. destruct (lookup_lt_is_Some_2 h1 a) as [na Hna]; [lia|].
    rewrite Hna. by apply Hext2.
Qed.

Lemma copy_nodes_unfold n c pp head h :
  copy_nodes copy_elem (S n) (Some c) pp head h =
  node ← h !! c;
  '(vcopy, h1) ← copy_elem (ListNode.v node) h;
  let '(fresh, h2) := make_shared vcopy None h1 in
  let '(head', h3) := store_pp pp fresh head h2 in
  node' ← h3 !! c;
  copy_nodes copy_elem n (ListNode.next node') fresh head' h3.
Proof. done. Qed.

Lemma copy_nodes_spec xs : ∀ n cur pp head h done,
  Forall (elem_ok copy_elem bad lo hi h0) xs →
  extends h0 h →
  list_repr lo hi h0 xs cur None →
  built (length h0) h done pp head →
  match copy_nodes copy_elem n cur pp head h with
  | Some (head', h') =>
    extends h0 h' ∧ list_repr (length h0) (length h') h' (done ++ xs) head' None
  | None => n < length xs ∨ Exists bad xs
  end.
Proof.
  induction xs as [|x xs IH]; intros n cur pp head h done Hok Hext Hcur Hbuilt.
  - simpl in Hcur. subst cur. destruct n; simpl; rewrite app_nil_r;
      (split; [done|by eapply built_finish]).
  - destruct Hcur as (c & node & -> & Hc & Hnode & Hx & Hrest).
    apply Forall_cons in Hok as [Hokx Hok].
    destruct n as [|n]; [left; simpl; lia|].
    rewrite copy_nodes_unfold, (Hext _ _ Hnode). simpl.
    specialize (Hokx (ListNode.v node) h Hext Hx).
    destruct (copy_elem (ListNode.v node) h) as [[vc h1]|]; simpl;
      [|right; by apply Exists_cons_hd].
    destruct Hokx as [Hext1 Hvc].
    assert (Hms : make_shared vc None h1 = (Some (length h1), h1 ++ [ListNode.mk vc None]))
      by done.
    destruct (store_pp pp _ head _) as [head' h3] eqn:Hst.
    destruct (built_step _ _ _ _ _ _ _ _ _ _ _ Hext Hext1 Hbuilt Hvc Hms Hst)
      as [Hext3 Hbuilt3].
    rewrite (Hext3 _ _ Hnode). simpl.
    specialize (IH n (ListNode.next node) _ head' h3 (done ++ [x]) Hok Hext3 Hrest Hbuilt3).
    destruct (copy_nodes copy_elem n (ListNode.next node) _ head' h3) as [[hd hf]|].
    + by rewrite <- app_assoc in IH.
    + destruct IH as [IH|IH]; [left; lia|right; by apply Exists_cons_tl].
Qed.
End copy_nodes.

(** ** [deep_copy] *)

Lemma deep_copy_elem_ok f lo hi (h0 : Heap) x :
  hi ≤ length h0 →
  (∀ y lo hi (h : Heap) val, hi ≤ length h → val_repr lo hi h y val →
     match deep_copy f val h with
     | Some (val', h') => extends h h' ∧ val_repr (length h) (length h') h' y val'
     | None => f < aval_size y
     end) →
  elem_ok (deep_copy_elem (deep_copy f)) (λ y, f < aval_size y) lo hi h0 x.
Proof.
  intros Hhi IH cv h1 Hext Hx.
  pose proof (extends_length _ _ Hext) as Hlen.
  apply (val_repr_extends _ _ _ h1) in Hx; [|done..].
  unfold deep_copy_elem. destruct (Value.type cv) eqn:Hty.
  - simpl. split; [apply extends_refl|].
    by rewrite (val_repr_int_inv _ _ _ _ _ Hty Hx).
  - destruct (val_repr_list_inv _ _ _ _ _ Hty Hx) as (ys & -> & Hys).
    assert (Hwaste : match
        (match Value.list cv with
         | Some b => nb ← h1 !! b; '(w, h2) ← deep_copy f (ListNode.v nb) h1;
                     Some (make_list (Value.list w), h2)
         | None => Some (make_list None, h1)
         end) with
        | Some (_, h2) => extends h1 h2
        | None => f < aval_size (AList ys)
        end).
    { destruct (Value.list cv) as [b|]; [|apply extends_refl].
      destruct ys as [|y ys]; [done|].
      destruct Hys as (b' & nb & [= <-] & Hb & Hnb & Hy & _).
      rewrite Hnb. simpl.
      specialize (IH y lo hi h1 (ListNode.v nb)). 
      destruct (deep_copy f (ListNode.v nb) h1) as [[w h2]|]; simpl.
      - apply IH; [lia|done].
      - change (f < S (aval_size y + sum_list (aval_size <$> ys))).
        assert (f < aval_size y) by (apply IH; [lia|done]). lia. }
    destruct (match Value.list cv with Some _ => _ | None => _ end) as [[w h2]|];
      simpl; [|done].
    pose proof (extends_length _ _ Hwaste) as Hlen2.
    specialize (IH (AList ys) lo hi h2 cv).
    destruct (deep_copy f cv h2) as [[vc h3]|].
    + destruct IH as [Hext3 Hvc]; [lia|by eapply val_repr_extends; [| |exact Hx]; [|lia]|].
      split; [by eapply extends_trans|].
      apply (val_repr_widen (length h2) (length h3) _ _ _ (AList ys)); [lia|lia|done].
    + apply IH; [lia|]. eapply val_repr_extends; [| |exact Hx]; [done|lia].
Qed.

(** [deep_copy] returns as soon as [fuel] reaches the size of the value, it
    leaves every node of the store as it was, and its result denotes the same
    value through nodes that did not exist before. *)
Lemma deep_copy_spec fuel : ∀ x lo hi (h : Heap) val,
  hi ≤ length h → val_repr lo hi h x val →
  match deep_copy fuel val h with
  | Some (val', h') => extends h h' ∧ val_repr (length h) (length h') h' x val'
  | None => fuel < aval_size x
  end.
Proof.
  induction fuel as [|f IH]; intros x lo hi h val Hhi Hx; simpl.
  { apply aval_size_pos. }
  destruct (Value.type val) eqn:Hty.
  - split; [apply extends_refl|]. by rewrite (val_repr_int_inv _ _ _ _ _ Hty Hx).
  - destruct (val_repr_list_inv _ _ _ _ _ Hty Hx) as (xs & -> & Hxs).
    destruct (Value.list val) as [c|] eqn:Hl.
    + pose proof (copy_nodes_spec (deep_copy_elem (deep_copy f)) (λ y, f < aval_size y)
                    lo hi h Hhi xs f (Some c) None None h []) as Hloop.
      destruct (copy_nodes _ f (Some c) None None h) as [[head h']|]; simpl.
      * destruct Hloop as [Hext Hrep]; [|apply extends_refl|done|done|].
        { apply Forall_forall. intros y _. by apply deep_copy_elem_ok. }
        by split.
      * destruct Hloop as [Hn|Hbad]; [|apply extends_refl|done|done|..].
        { apply Forall_forall. intros y _. by apply deep_copy_elem_ok. }
        -- pose proof (aval_size_length xs). lia.
        -- apply Exists_exists in Hbad as (y & Hy & Hlt).
           pose proof (aval_size_elem _ _ Hy). lia.
    + apply lseg_null_inv in Hxs as ->. split; [apply extends_refl|done].
Qed.

(** More fuel never changes a result. *)
Lemma copy_nodes_mono (ce ce' : Value → Heap → option (Value * Heap)) n :
  (∀ cv h r, ce cv h = Some r → ce' cv h = Some r) →
  ∀ n' cur pp head h r, n ≤ n' →
    copy_nodes ce n cur pp head h = Some r → copy_nodes ce' n' cur pp head h = Some r.
Proof.
  intros Hce. induction n as [|n IH]; intros n' cur pp head h r Hle;
    (destruct cur as [c|]; [|by destruct n']); [done|].
  destruct n' as [|n']; [lia|]. simpl.
  destruct (h !! c) as [node|]; simpl; [|done].
  destruct (ce (ListNode.v node) h) as [[vc h1]|] eqn:Hvc; simpl; [|done].
  rewrite (Hce _ _ _ Hvc). simpl.
  destruct (store_pp pp _ head _) as [head' h3].
  destruct (h3 !! c) as [node'|]; simpl; [|done].
  apply IH. lia.
Qed.

Lemma deep_copy_elem_mono (rec rec' : Value → Heap → option (Value * Heap)) :
  (∀ cv h r, rec cv h = Some r → rec' cv h = Some r) →
  ∀ cv h r, deep_copy_elem rec cv h = Some r → deep_copy_elem rec' cv h = Some r.
Proof.
  intros Hrec cv h r. unfold deep_copy_elem.
  destruct (Value.type cv); [done|].
  destruct (Value.list cv) as [b|]; simpl.
  - destruct (h !! b) as [nb|]; simpl; [|done].
    destruct (rec (ListNode.v nb) h) as [[w h1]|] eqn:Hw; simpl; [|done].
    rewrite (Hrec _ _ _ Hw). simpl. apply Hrec.
  - apply Hrec.
Qed.

Lemma deep_copy_mono f : ∀ f' val h r,
  f ≤ f' → deep_copy f val h = Some r → deep_copy f' val h = Some r.
Proof.
  induction f as [|f IH]; intros f' val h r Hle; [done|].
  destruct f' as [|f']; [lia|]. simpl.
  destruct (Value.type val); [done|].
  destruct (Value.list val) as [c|]; [|done].
  destruct (copy_nodes _ f (Some c) None None h) as [[head h']|] eqn:Hloop; simpl; [|done].
  intros <-.
  rewrite (copy_nodes_mono (deep_copy_elem (deep_copy f)) (deep_copy_elem (deep_copy f')) f)
    with (r := (head, h')); [done| |lia|done].
  apply deep_copy_elem_mono. intros cv h1 r1. apply IH. lia.
Qed.

(** ** One instruction *)

Lemma exists_true id (e : Env) : exists_ id e = true ↔ is_Some (e !! id).
Proof. unfold exists_. apply bool_decide_eq_true. Qed.

Lemma exists_false id (e : Env) : exists_ id e = false ↔ e !! id = None.
Proof. unfold exists_. rewrite bool_decide_eq_false. symmetry. apply eq_None_not_Some. Qed.

Ltac exec_cases :=
  unfold execute, throw, set, with_env, with_heap in *;
  repeat (simplify_option_eq || case_match).

Lemma execute_throw_env fuel ins pc prog st e st' :
  execute fuel ins pc prog st = Some (Throw e, st') → env st' = env st.
Proof. intros H. destruct ins; exec_cases; done. Qed.

Lemma execute_dom fuel ins pc prog st r st' :
  execute fuel ins pc prog st = Some (r, st') → dom (env st) ⊆ dom (env st').
Proof.
  intros H. destruct ins; exec_cases; simpl; rewrite ?dom_insert_L; set_solver.
Qed.

Lemma deep_copy_Some fuel x lo hi (h : Heap) val val' h' :
  hi ≤ length h → val_repr lo hi h x val → deep_copy fuel val h = Some (val', h') →
  extends h h' ∧ val_repr (length h) (length h') h' x val'.
Proof.
  intros Hhi Hx Hdc. pose proof (deep_copy_spec fuel x lo hi h val Hhi Hx) as Hs.
  by rewrite Hdc in Hs.
Qed.

Lemma deep_copy_enough fuel x lo hi (h : Heap) val :
  hi ≤ length h → val_repr lo hi h x val → aval_size x ≤ fuel →
  ∃ val' h', deep_copy fuel val h = Some (val', h').
Proof.
  intros Hhi Hx Hfuel. pose proof (deep_copy_spec fuel x lo hi h val Hhi Hx) as Hs.
  destruct (deep_copy fuel val h) as [[val' h']|]; [eauto|lia].
Qed.

Lemma deep_copy_elem_ok_top fuel lo hi (h0 : Heap) x :
  hi ≤ length h0 → elem_ok (deep_copy fuel) (λ y, fuel < aval_size y) lo hi h0 x.
Proof.
  intros Hhi cv h1 Hext Hx. pose proof (extends_length _ _ Hext).
  apply (deep_copy_spec fuel x lo hi); [lia|]. by eapply val_repr_extends.
Qed.

(** The loop of [TAIL]: the chain after the first node is copied to fresh
    nodes. *)
Lemma tail_copy_spec fuel lo hi (h : Heap) xs p :
  hi ≤ length h → list_repr lo hi h xs p None →
  match copy_nodes (deep_copy fuel) fuel p None None h with
  | Some (head, h') => extends h h' ∧ list_repr (length h) (length h') h' xs head None
  | None => fuel < S (sum_list (aval_size <$> xs))
  end.
Proof.
  intros Hhi Hxs.
  pose proof (copy_nodes_spec (deep_copy fuel) (λ y, fuel < aval_size y)
                lo hi h Hhi xs fuel p None None h []) as Hloop.
  destruct (copy_nodes (deep_copy fuel) fuel p None None h) as [[head h']|].
  - apply Hloop; [|apply extends_refl|done|done].
    apply Forall_forall. intros y _. by apply deep_copy_elem_ok_top.
  - destruct Hloop as [Hn|Hbad]; [|apply extends_refl|done|done|..].
    { apply Forall_forall. intros y _. by apply deep_copy_elem_ok_top. }
    + pose proof (aval_size_length xs). lia.
    + apply Exists_exists in Hbad as (y & Hy & Hlt).
      pose proof (aval_size_elem _ _ Hy). lia.
Qed.

Lemma val_repr_grow (h h' : Heap) x val :
  extends h h' → val_repr 0 (length h) h x val → val_repr 0 (length h') h' x val.
Proof.
  intros Hext Hx. pose proof (extends_length _ _ Hext).
  eapply val_repr_widen; [| |by eapply val_repr_extends]; lia.
Qed.

Lemma list_repr_grow (h h' : Heap) xs p q :
  extends h h' → list_repr 0 (length h) h xs p q → list_repr 0 (length h') h' xs p q.
Proof.
  intros Hext Hx. pose proof (extends_length _ _ Hext).
  eapply list_repr_widen; [| |by eapply list_repr_extends]; lia.
Qed.

Lemma wf_extends st h' : wf st → extends (heap st) h' → wf {| heap := h'; env := env st |}.
Proof.
  intros Hwf Hext id val Hid. destruct (Hwf id val Hid) as [x Hx].
  exists x. simpl. by eapply val_repr_grow.
Qed.

Lemma wf_insert st h' id x val :
  wf st → extends (heap st) h' → val_repr 0 (length h') h' x val →
  wf {| heap := h'; env := <[id := val]> (env st) |}.
Proof.
  intros Hwf Hext Hx id' val'. simpl. rewrite lookup_insert.
  case_decide; [intros [= <-]; eauto|].
  intros Hid. destruct (Hwf id' val' Hid) as [x' Hx'].
  exists x'. by eapply val_repr_grow.
Qed.

Lemma wf_empty : wf empty_store.
Proof. intros id val. simpl. by rewrite lookup_empty. Qed.

Lemma prepend_repr (h h1 : Heap) x xs vcopy old :
  extends h h1 → val_repr (length h) (length h1) h1 x vcopy →
  list_repr 0 (length h) h xs old None →
  val_repr 0 (length (h1 ++ [ListNode.mk vcopy old])) (h1 ++ [ListNode.mk vcopy old])
           (AList (x :: xs)) (make_list (Some (length h1))).
Proof.
  intros Hext Hx Hxs. pose proof (extends_length _ _ Hext) as Hlen.
  assert (Hext2 : extends h1 (h1 ++ [ListNode.mk vcopy old])) by apply extends_app.
  split; [done|]. exists (length h1), (ListNode.mk vcopy old).
  rewrite length_app. simpl. split_and!; [done|lia|lia| | |].
  - rewrite lookup_app_r by lia. by rewrite Nat.sub_diag.
  - apply (val_repr_widen (length h) (length h1)); [lia|lia|].
    by apply (val_repr_extends _ _ h1).
  - replace (length h1 + 1) with (length (h1 ++ [ListNode.mk vcopy old]))
      by (rewrite length_app; simpl; lia).
    eapply list_repr_grow; [|exact Hxs]. by eapply extends_trans.
Qed.

Lemma val_repr_head lo hi (h : Heap) x val a :
  Value.type val = VT_LIST → Value.list val = Some a → val_repr lo hi h x val →
  ∃ node y ys, x = AList (y :: ys) ∧ lo ≤ a < hi ∧ h !! a = Some node ∧
               val_repr lo hi h y (ListNode.v node) ∧
               list_repr lo hi h ys (ListNode.next node) None.
Proof.
  intros Hty Hl Hx. destruct (val_repr_list_inv _ _ _ _ _ Hty Hx) as (xs & -> & Hxs).
  rewrite Hl in Hxs. destruct xs as [|y ys]; [done|].
  destruct Hxs as (a' & node & [= <-] & Ha & Hnode & Hy & Hys).
  by exists node, y, ys.
Qed.

Lemma tail_copy_Some fuel lo hi (h : Heap) xs p head h' :
  hi ≤ length h → list_repr lo hi h xs p None →
  copy_nodes (deep_copy fuel) fuel p None None h = Some (head, h') →
  extends h h' ∧ list_repr (length h) (length h') h' xs head None.
Proof.
  intros Hhi Hxs Hcp. pose proof (tail_copy_spec fuel lo hi h xs p Hhi Hxs) as Hs.
  by rewrite Hcp in Hs.
Qed.

Ltac wf_facts Hwf :=
  repeat match goal with
  | Hl : env ?st !! ?id = Some ?val |- _ =>
    lazymatch goal with
    | _ : val_repr 0 (length (heap st)) (heap st) _ val |- _ => fail
    | _ => let x := fresh "x" in let Hx := fresh "Hx" in destruct (Hwf _ _ Hl) as [x Hx]
    end
  end.

Lemma execute_wf fuel ins pc prog st r st' :
  wf st → execute fuel ins pc prog st = Some (r, st') →
  wf st' ∧ extends (heap st) (heap st').
Proof.
  intros Hwf H.
  assert (Hsame : wf st ∧ extends (heap st) (heap st)) by (split; [done|apply extends_refl]).
  assert (Hint : ∀ id n ty l, ty = VT_INT →
            wf {| heap := heap st; env := <[id := Value.mk ty n l]> (env st) |}
            ∧ extends (heap st) (heap st)).
  { intros id n ty l ->. split; [|apply extends_refl].
    eapply (wf_insert _ _ _ (AInt n)); [done|apply extends_refl|done]. }
  assert (Hnil : ∀ id, wf {| heap := heap st; env := <[id := make_list None]> (env st) |}
            ∧ extends (heap st) (heap st)).
  { intros id. split; [|apply extends_refl].
    by eapply (wf_insert _ _ _ (AList [])); [done|apply extends_refl|]. }
  destruct ins.
  - exec_cases; [done|by apply Hint].
  - exec_cases; [done|by apply Hnil].
  - exec_cases; try done; wf_facts Hwf.
    + edestruct deep_copy_Some as [Hext Hv]; [| |eassumption|]; [|eassumption|]; [done|].
      split; [by apply wf_extends|done].
    + edestruct deep_copy_Some as [Hext Hv]; [| |eassumption|]; [|eassumption|]; [done|].
      match goal with Hty : Value.type ?t = VT_LIST, Ht : val_repr _ _ _ _ ?t |- _ =>
        destruct (val_repr_list_inv _ _ _ _ _ Hty Ht) as (xs & Hxeq & Hxs) end.
      simpl. split.
      * eapply wf_insert; [done| |by eapply prepend_repr].
        eapply extends_trans; [done|apply extends_app].
      * eapply extends_trans; [done|apply extends_app].
  - exec_cases; try done; wf_facts Hwf.
    edestruct deep_copy_Some as [Hext Hv]; [| |eassumption|]; [|eassumption|]; [done|].
    simpl. split; [|done]. eapply wf_insert; [done..|]. by eapply val_repr_widen; [| |exact Hv]; lia.
  - exec_cases; try done; wf_facts Hwf.
    edestruct val_repr_head as (node & y & ys & Hxeq & Ha & Hnode & Hy & Hys); [done..|].
    simplify_eq.
    edestruct deep_copy_Some as [Hext Hv]; [| |eassumption|]; [|eassumption|]; [done|].
    simpl. split; [|done]. eapply wf_insert; [done..|].
    by eapply val_repr_widen; [| |exact Hv]; lia.
  - exec_cases; try done; wf_facts Hwf; try (by apply Hnil).
    edestruct val_repr_head as (node & y & ys & Hxeq & Ha & Hnode & Hy & Hys); [done..|].
    simplify_eq.
    edestruct tail_copy_Some as [Hext Hv]; [| |eassumption|]; [|eassumption|]; [done|].
    simpl. split; [|done]. eapply (wf_insert _ _ _ (AList ys)); [done..|].
    split; [done|]. by eapply list_repr_widen; [| |exact Hv]; lia.
  - exec_cases; try done; by apply Hint.
  - exec_cases; try done; by apply Hint.
  - exec_cases; try done; by apply Hint.
  - exec_cases; done.
  - exec_cases; done.
  - exec_cases; done.
Qed.

Lemma execute_mono fuel fuel' ins pc prog st res :
  fuel ≤ fuel' → execute fuel ins pc prog st = Some res →
  execute fuel' ins pc prog st = Some res.
Proof.
  intros Hle H.
  assert (Hdc : ∀ val h r, deep_copy fuel val h = Some r → deep_copy fuel' val h = Some r).
  { intros val h r. by apply deep_copy_mono. }
  assert (Hcp : ∀ p h r, copy_nodes (deep_copy fuel) fuel p None None h = Some r →
                         copy_nodes (deep_copy fuel') fuel' p None None h = Some r).
  { intros p h r. by apply copy_nodes_mono. }
  destruct ins; try done; unfold execute, throw in *;
    repeat match goal with
    | H : context [negb ?b] |- _ => destruct b eqn:?; simpl in H |- *; try done
    | H : (?m ≫= _) = Some _ |- _ =>
      let E := fresh "E" in
      destruct m as [?|] eqn:E; simpl in H;
      [first [rewrite (Hdc _ _ _ E)|rewrite (Hcp _ _ _ E)|idtac]; simpl|done]
    | H : match ?x with _ => _ end = Some _ |- _ => destruct x eqn:?; simpl in H |- *; try done
    | H : (let '(_, _) := ?x in _) = Some _ |- _ => destruct x eqn:?; simpl in H |- *
    end.
Qed.

(** In a sound store every instruction returns or throws once [fuel] is
    large enough: no pointer dangles and every traversal ends. *)
Lemma execute_total ins pc prog st :
  wf st → ∃ fuel0, ∀ fuel, fuel0 ≤ fuel → is_Some (execute fuel ins pc prog st).
Proof.
  intros Hwf.
  assert (Hlook : ∀ id, exists_ id (env st) = true →
            ∃ val x, env st !! id = Some val ∧
                     val_repr 0 (length (heap st)) (heap st) x val).
  { intros id [val Hid]%exists_true. destruct (Hwf _ _ Hid) as [x Hx]. eauto. }
  destruct ins; try (exists 0; intros fuel _; unfold execute, throw;
    repeat match goal with
    | |- context [exists_ ?id (env st)] =>
      let E := fresh "E" in
      destruct (exists_ id (env st)) eqn:E; simpl;
      [destruct (Hlook _ E) as (? & ? & -> & _); simpl|]
    | |- context [match ?x with _ => _ end] => destruct x; simpl
    end; by eauto).
  - (* MERGE *)
    destruct (exists_ from (env st)) eqn:Efrom;
      [|exists 0; intros; unfold execute; rewrite Efrom; by eauto].
    destruct (exists_ tolist (env st)) eqn:Eto;
      [|exists 0; intros; unfold execute; rewrite Efrom, Eto; by eauto].
    destruct (Hlook _ Efrom) as (src & x & Hsrc & Hx).
    destruct (Hlook _ Eto) as (target & y & Htarget & _).
    exists (aval_size x). intros fuel Hfuel.
    destruct (deep_copy_enough fuel x 0 _ _ _ (le_n _) Hx Hfuel) as (vcopy & h1 & Hdc).
    unfold execute, throw. rewrite Efrom, Eto. simpl. rewrite Hsrc. simpl.
    rewrite Hdc. simpl. rewrite Htarget. simpl. destruct (Value.type target); by eauto.
  - (* COPY *)
    destruct (exists_ src (env st)) eqn:Esrc;
      [|exists 0; intros; unfold execute; rewrite Esrc; by eauto].
    destruct (Hlook _ Esrc) as (val & x & Hsrc & Hx).
    exists (aval_size x). intros fuel Hfuel.
    destruct (deep_copy_enough fuel x 0 _ _ _ (le_n _) Hx Hfuel) as (vcopy & h1 & Hdc).
    unfold execute, throw. rewrite Esrc. simpl. rewrite Hsrc. simpl.
    destruct (Value.type val); [by eauto|]. rewrite Hdc. by eauto.
  - (* HEAD *)
    destruct (exists_ listid (env st)) eqn:El;
      [|exists 0; intros; unfold execute; rewrite El; by eauto].
    destruct (Hlook _ El) as (lv & x & Hlv & Hx).
    destruct (Value.type lv) eqn:Hty;
      [exists 0; intros; unfold execute, throw; rewrite El; simpl; rewrite Hlv; simpl;
       rewrite Hty; by eauto|].
    destruct (Value.list lv) as [a|] eqn:Hl;
      [|exists 0; intros; unfold execute, throw; rewrite El; simpl; rewrite Hlv; simpl;
        rewrite Hty, Hl; by eauto].
    destruct (val_repr_head _ _ _ _ _ _ Hty Hl Hx) as (node & y & ys & _ & _ & Hnode & Hy & _).
    exists (aval_size y). intros fuel Hfuel.
    destruct (deep_copy_enough fuel y 0 _ _ _ (le_n _) Hy Hfuel) as (vcopy & h1 & Hdc).
    unfold execute. rewrite El. simpl. rewrite Hlv. simpl. rewrite Hty, Hl, Hnode. simpl.
    rewrite Hdc. by eauto.
  - (* TAIL *)
    destruct (exists_ src (env st)) eqn:Es;
      [|exists 0; intros; unfold execute; rewrite Es; by eauto].
    destruct (Hlook _ Es) as (sv & x & Hsv & Hx).
    destruct (Value.type sv) eqn:Hty;
      [exists 0; intros; unfold execute, throw; rewrite Es; simpl; rewrite Hsv; simpl;
       rewrite Hty; by eauto|].
    destruct (Value.list sv) as [a|] eqn:Hl;
      [|exists 0; intros; unfold execute, throw; rewrite Es; simpl; rewrite Hsv; simpl;
        rewrite Hty, Hl; by eauto].
    destruct (val_repr_head _ _ _ _ _ _ Hty Hl Hx) as (node & y & ys & _ & _ & Hnode & _ & Hys).
    exists (aval_size (AList ys)). intros fuel Hfuel.
    pose proof (tail_copy_spec fuel 0 _ _ ys _ (le_n _) Hys) as Hs.
    unfold execute. rewrite Es. simpl. rewrite Hsv. simpl. rewrite Hty, Hl, Hnode. simpl.
    destruct (copy_nodes (deep_copy fuel) fuel (ListNode.next node) None None (heap st))
      as [[hd h1]|]; [by eauto|simpl in Hfuel; lia].
Qed.

(** ** The whole run *)

Lemma run_loop_unfold steps fuel prog pc st :
  run_loop (S steps) fuel prog pc st =
  if (pc <? 1)%Z then Some (Halted st)
  else if (pc >? Z.of_nat (length prog))%Z then Some (Halted st)
  else
    ins ← prog !! Z.to_nat (pc - 1);
    '(r, st') ← execute fuel ins pc prog st;
    match r with
    | Ok next => if (next =? -1)%Z then Some (Halted st')
                 else run_loop steps fuel prog next st'
    | Throw e => Some (Failed e st')
    end.
Proof. done. Qed.

Lemma run_loop_mono steps : ∀ steps' fuel fuel' prog pc st ex,
  steps ≤ steps' → fuel ≤ fuel' →
  run_loop steps fuel prog pc st = Some ex → run_loop steps' fuel' prog pc st = Some ex.
Proof.
  induction steps as [|n IH]; intros steps' fuel fuel' prog pc st ex Hs Hf.
  - destruct steps'; simpl; repeat case_match; done.
  - destruct steps' as [|n']; [lia|]. rewrite !run_loop_unfold.
    repeat case_match; try done.
    destruct (prog !! Z.to_nat (pc - 1)) as [ins|]; simpl; [|done].
    destruct (execute fuel ins pc prog st) as [[r st1]|] eqn:Hex; simpl; [|done].
    rewrite (execute_mono _ _ _ _ _ _ _ Hf Hex). simpl.
    destruct r as [next|e]; [|done]. case_match; [done|]. apply IH; lia.
Qed.

Lemma run_loop_inv (P : Store → Prop) steps fuel prog :
  (∀ ins pc st r st', P st → execute fuel ins pc prog st = Some (r, st') → P st') →
  ∀ pc st ex, P st → run_loop steps fuel prog pc st = Some ex → P (exit_store ex).
Proof.
  intros Hstep. induction steps as [|n IH]; intros pc st ex HP.
  - simpl. repeat case_match; try done; by intros [= <-].
  - rewrite run_loop_unfold. repeat case_match; try (by intros [= <-]).
    destruct (prog !! Z.to_nat (pc - 1)) as [ins|]; simpl; [|done].
    destruct (execute fuel ins pc prog st) as [[r st1]|] eqn:Hex; simpl; [|done].
    pose proof (Hstep _ _ _ _ _ HP Hex) as HP1.
    destruct r as [next|e]; [|by intros [= <-]].
    case_match; [by intros [= <-]|]. by apply IH.
Qed.

Lemma run_loop_wf steps fuel prog pc st ex :
  wf st → run_loop steps fuel prog pc st = Some ex → wf (exit_store ex).
Proof.
  apply (run_loop_inv wf). intros ins pc' st0 r st1 Hwf Hex.
  by destruct (execute_wf _ _ _ _ _ _ _ Hwf Hex).
Qed.

Lemma run_loop_dom steps fuel prog pc st ex :
  run_loop steps fuel prog pc st = Some ex → dom (env st) ⊆ dom (env (exit_store ex)).
Proof.
  apply (run_loop_inv (λ st', dom (env st) ⊆ dom (env st'))); [|done].
  intros ins pc' st0 r st1 Hsub Hex. pose proof (execute_dom _ _ _ _ _ _ _ Hex). set_solver.
Qed.

Lemma steps_to_wf fuel prog pc st pc' st' :
  steps_to fuel prog pc st pc' st' → wf st → wf st'.
Proof.
  induction 1 as [|pc st ins next st1 pc' st' _ _ Hex _ _ IH]; [done|].
  intros Hwf. apply IH. by destruct (execute_wf _ _ _ _ _ _ _ Hwf Hex).
Qed.



(** ** Printing *)

Lemma string_app_assoc (s1 s2 s3 : string) : (s1 +:+ s2) +:+ s3 = s1 +:+ s2 +:+ s3.
Proof.
  induction s1 as [|c s1 IH]; [done|].
  change (String c ((s1 +:+ s2) +:+ s3) = String c (s1 +:+ s2 +:+ s3)). by f_equal.
Qed.

Lemma string_app_nil_r (s : string) : s +:+ "" = s.
Proof.
  induction s as [|c s IH]; [done|].
  change (String c (s +:+ "") = String c s). by f_equal.
Qed.

Lemma join_render x xs : join ", " (render <$> x :: xs) = render x +:+ render_rest xs.
Proof.
  revert x. induction xs as [|y ys IH]; intros x.
  - simpl. by rewrite string_app_nil_r.
  - change (render x +:+ ", " +:+ join ", " (render <$> y :: ys)
            = render x +:+ ", " +:+ render y +:+ render_rest ys).
    by rewrite IH.
Qed.

Lemma list_to_string_loop_spec (vts : Value → option string) (bad : AVal → Prop)
    lo hi (h : Heap) xs :
  Forall (λ x, ∀ w, val_repr lo hi h x w →
                    match vts w with Some e => e = render x | None => bad x end) xs →
  ∀ n p first s, list_repr lo hi h xs p None →
    match list_to_string_loop vts n h p first s with
    | Some r =>
      r = s +:+ (if first then match xs with
                               | [] => ""
                               | x :: xs' => render x +:+ render_rest xs'
                               end
                 else render_rest xs)
    | None => n < length xs ∨ Exists bad xs
    end.
Proof.
  induction 1 as [|x xs Hx _ IH]; intros n p first s Hp.
  - simpl in Hp. subst p. destruct n, first; simpl; by rewrite string_app_nil_r.
  - destruct Hp as (a & node & -> & Ha & Hnode & Hv & Hrest).
    destruct n as [|n]; simpl; [left; lia|].
    rewrite Hnode. simpl. specialize (Hx _ Hv).
    destruct (vts (ListNode.v node)) as [e|]; simpl; [|right; by apply Exists_cons_hd].
    subst e. specialize (IH n (ListNode.next node) false
                            ((if first then s else s +:+ ", ") +:+ render x) Hrest).
    destruct (list_to_string_loop vts n h (ListNode.next node) false _) as [r|].
    + subst r. change (render_rest (x :: xs)) with (", " +:+ render x +:+ render_rest xs).
      destruct first; cbv iota; by rewrite !string_app_assoc.
    + destruct IH as [IH|IH]; [left; lia|right; by apply Exists_cons_tl].
Qed.

(** [list_to_string] prints what the specification calls the rendering of
    the list, as soon as [fuel] reaches the size of the value. *)
Lemma list_to_string_spec fuel : ∀ xs lo hi (h : Heap) p,
  list_repr lo hi h xs p None →
  match list_to_string fuel h p with
  | Some s => s = render (AList xs)
  | None => fuel < aval_size (AList xs)
  end.
Proof.
  induction fuel as [|f IH]; intros xs lo hi h p Hp.
  { simpl. lia. }
  destruct p as [a|]; cycle 1.
  { apply lseg_null_inv in Hp as ->. done. }
  cbn [list_to_string].
  set (vts := λ val : Value, match Value.type val with
                             | VT_INT => Some (to_string (Value.ival val))
                             | VT_LIST => list_to_string f h (Value.list val)
                             end).
  pose proof (list_to_string_loop_spec vts (λ y, f < aval_size y) lo hi h xs) as Hloop.
  specialize (λ H, Hloop H f (Some a) true "[" Hp).
  destruct (list_to_string_loop vts f h (Some a) true "[") as [r|]; simpl.
  - rewrite Hloop.
    + destruct xs as [|x xs]; [by destruct Hp as []|].
      rewrite join_render. by rewrite !string_app_assoc.
    + apply Forall_forall. intros y _ w Hw. unfold vts.
      destruct (Value.type w) eqn:Hty.
      * by rewrite (val_repr_int_inv _ _ _ _ _ Hty Hw).
      * destruct (val_repr_list_inv _ _ _ _ _ Hty Hw) as (ys & -> & Hys).
        by apply (IH ys lo hi).
  - destruct Hloop as [Hn|Hbad].
    + apply Forall_forall. intros y _ w Hw. unfold vts.
      destruct (Value.type w) eqn:Hty.
      * by rewrite (val_repr_int_inv _ _ _ _ _ Hty Hw).
      * destruct (val_repr_list_inv _ _ _ _ _ Hty Hw) as (ys & -> & Hys).
        by apply (IH ys lo hi).
    + pose proof (aval_size_length xs). simpl. lia.
    + apply Exists_exists in Hbad as (y & Hy & Hlt).
      pose proof (aval_size_elem _ _ Hy). simpl. lia.
Qed.

Lemma report_line_spec fuel st n x :
  denotes st n x → aval_size x ≤ fuel →
  report_line fuel st n = Some (n +:+ " = " +:+ render x).
Proof.
  intros (val & Hn & Hx) Hfuel. unfold report_line. rewrite Hn. simpl.
  destruct (Value.type val) eqn:Hty.
  - by rewrite (val_repr_int_inv _ _ _ _ _ Hty Hx).
  - destruct (val_repr_list_inv _ _ _ _ _ Hty Hx) as (xs & -> & Hxs).
    pose proof (list_to_string_spec fuel xs _ _ _ _ Hxs) as Hs.
    destruct (list_to_string fuel (heap st) (Value.list val)) as [s|]; [|lia].
    by subst s.
Qed.

Lemma report_lines_spec st names :
  wf st → Forall (λ n, is_Some (env st !! n)) names →
  ∃ fuel0, ∀ fuel, fuel0 ≤ fuel →
    ∃ lines, mapM (report_line fuel st) names = Some lines ∧
      Forall2 (λ n line, ∃ x, denotes st n x ∧ line = n +:+ " = " +:+ render x) names lines.
Proof.
  intros Hwf. induction 1 as [|n names [val Hn] _ [fuel0 IH]].
  - exists 0. intros fuel _. exists []. by split; [|constructor].
  - destruct (Hwf _ _ Hn) as [x Hx].
    exists (Nat.max fuel0 (aval_size x)). intros fuel Hfuel.
    destruct (IH fuel) as (lines & Hlines & Hall); [lia|].
    assert (Hd : denotes st n x) by by exists val.
    exists ((n +:+ " = " +:+ render x) :: lines). split.
    + apply mapM_Some. constructor; [apply report_line_spec; [done|lia]|].
      by apply mapM_Some.
    + constructor; [by exists x|done].
Qed.

Lemma sorted_names_elem (e : Env) n : n ∈ sorted_names e ↔ is_Some (e !! n).
Proof.
  unfold sorted_names. rewrite merge_sort_Permutation, list_elem_of_fmap. split.
  - intros ([n' val] & -> & Hin). apply elem_of_map_to_list in Hin. by exists val.
  - intros [val Hn]. exists (n, val). split; [done|]. by apply elem_of_map_to_list.
Qed.

Lemma sorted_names_NoDup (e : Env) : NoDup (sorted_names e).
Proof. unfold sorted_names. rewrite merge_sort_Permutation. apply NoDup_fst_map_to_list. Qed.

Lemma sorted_names_sorted (e : Env) : StronglySorted String.le (sorted_names e).
Proof. apply StronglySorted_merge_sort; apply _. Qed.

Lemma final_report_spec st :
  wf st →
  ∃ fuel0, ∀ fuel, fuel0 ≤ fuel →
    ∃ lines, final_report fuel st = Some lines ∧
      Forall2 (λ n line, ∃ x, denotes st n x ∧ line = n +:+ " = " +:+ render x)
              (sorted_names (env st)) lines.
Proof.
  intros Hwf. apply report_lines_spec; [done|].
  apply Forall_forall. intros n. apply sorted_names_elem.
Qed.

(** ** The instructions, one by one *)

Lemma exists_Some id (e : Env) val : e !! id = Some val → exists_ id e = true.
Proof. intros H. apply exists_true. by exists val. Qed.

Lemma denotes_frame fuel ins pc prog st r st' l x :
  wf st → execute fuel ins pc prog st = Some (r, st') →
  denotes st l x → target_of ins ≠ Some l →
  env st' !! l = env st !! l ∧ extends (heap st) (heap st') ∧ denotes st' l x.
Proof.
  intros Hwf Hex (val & Hl & Hx) Hne.
  destruct (execute_wf _ _ _ _ _ _ _ Hwf Hex) as [_ Hext].
  assert (Hsame : env st' !! l = env st !! l).
  { clear Hwf Hx Hext. destruct ins; simpl in Hne; exec_cases; simpl;
      rewrite ?lookup_insert_ne; congruence. }
  split_and!; [done..|]. exists val. split; [congruence|]. by eapply val_repr_grow.
Qed.

(** C1: MERGE src dst copies the value of src into fresh nodes and puts it in
    a new head node whose [next] is the very pointer that dst held, so the old
    chain is shared and no node of it is touched; the program of scenario B
    ends with a = 2 and l = [2, 1]; and an instruction that rebinds another
    variable (such as a later ASSIGN to a) leaves l, its nodes and what it
    denotes as they were. *)
Theorem C1_merge_prepends_deep_copy :
  (∀ fuel ln src dst pc prog st vs vd x xs,
     env st !! src = Some vs → env st !! dst = Some vd →
     val_repr 0 (length (heap st)) (heap st) x vs →
     val_repr 0 (length (heap st)) (heap st) (AList xs) vd →
     aval_size x ≤ fuel →
     ∃ vcopy h1 st',
       execute fuel (Instr_MERGE ln src dst) pc prog st = Some (Ok (pc + 1)%Z, st') ∧
       extends (heap st) h1 ∧
       val_repr (length (heap st)) (length h1) h1 x vcopy ∧
       heap st' = h1 ++ [ListNode.mk vcopy (Value.list vd)] ∧
       env st' = <[dst := make_list (Some (length h1))]> (env st) ∧
       denotes st' dst (AList (x :: xs)))
  ∧ (run_loop 7 2 scenario_B 1 empty_store = Some (Halted scenario_B_final) ∧
     denotes scenario_B_final "a" (AInt 2) ∧
     denotes scenario_B_final "l" (AList [AInt 2; AInt 1]) ∧
     main 7 3 (λ _, Some scenario_B_text) ["ppl"; "b.ppl"]
       = Some (0%Z, {| out := ["a = 2"; "l = [2, 1]"]; err := [] |}))
  ∧ (∀ fuel ins pc prog st r st' l x,
       wf st → execute fuel ins pc prog st = Some (r, st') →
       denotes st l x → target_of ins ≠ Some l →
       env st' !! l = env st !! l ∧ extends (heap st) (heap st') ∧ denotes st' l x).
Proof.
  split; [|split].
  - intros fuel ln src dst pc prog st vs vd x xs Hsrc Hdst Hx Hxs Hfuel.
    destruct (deep_copy_enough fuel x 0 _ _ vs (le_n _) Hx Hfuel) as (vcopy & h1 & Hdc).
    destruct (deep_copy_Some _ _ _ _ _ _ _ _ (le_n _) Hx Hdc) as [Hext Hv].
    destruct Hxs as [Hty Hxs].
    exists vcopy, h1. eexists. split_and!.
    + unfold execute. rewrite (exists_Some _ _ _ Hsrc), (exists_Some _ _ _ Hdst). simpl.
      rewrite Hsrc. simpl. rewrite Hdc. simpl. rewrite Hdst. simpl. rewrite Hty.
      reflexivity.
    + done.
    + done.
    + done.
    + done.
    + eexists. split; [apply lookup_insert_eq|]. simpl. by eapply prepend_repr.
  - split; [vm_compute; reflexivity|]. split_and!.
    + eexists. split; [vm_compute; reflexivity|]. done.
    + eexists. split; [vm_compute; reflexivity|]. split; [done|].
      do 2 eexists. split_and!; [done|simpl; lia|simpl; lia|reflexivity|done|].
      do 2 eexists. split_and!; [done|simpl; lia|simpl; lia|reflexivity|done|done].
    + vm_compute. reflexivity.
  - intros. by eapply denotes_frame.
Qed.

Lemma C1_merge_witness :
  ∃ vcopy h1 st',
    execute 1 (Instr_MERGE 4 "a" "l") 4 scenario_B
            {| heap := []; env := <["a" := make_int 1]> (<["l" := make_list None]> ∅) |}
      = Some (Ok (4 + 1)%Z, st') ∧
    extends [] h1 ∧
    val_repr 0 (length h1) h1 (AInt 1) vcopy ∧
    heap st' = h1 ++ [ListNode.mk vcopy None] ∧
    env st' = <["l" := make_list (Some (length h1))]>
                (<["a" := make_int 1]> (<["l" := make_list None]> ∅)) ∧
    denotes st' "l" (AList [AInt 1]).
Proof.
  refine (proj1 C1_merge_prepends_deep_copy 1 4%Z "a" "l" 4%Z scenario_B
           {| heap := []; env := <["a" := make_int 1]> (<["l" := make_list None]> ∅) |}
           (make_int 1) (make_list None) (AInt 1) [] _ _ _ _ _).
  - vm_compute. reflexivity.
  - vm_compute. reflexivity.
  - simpl. split; reflexivity.
  - simpl. split; reflexivity.
  - simpl. lia.
Defined.

(** C6: TAIL on an empty list binds dst to the empty list and goes on; on a
    non-empty list it binds dst to a copy, in fresh nodes, of the elements
    after the first.  HEAD on an empty list throws the empty-list error and
    leaves the store as it is; on a non-empty list it binds id (declared or
    not) to a copy, in fresh nodes, of the first element. *)
Theorem C6_tail_total_head_partial :
  (∀ fuel ln src dst pc prog st sv,
     env st !! src = Some sv → Value.type sv = VT_LIST → Value.list sv = None →
     execute fuel (Instr_TAIL ln src dst) pc prog st
       = Some (Ok (pc + 1)%Z, {| heap := heap st; env := <[dst := make_list None]> (env st) |}))
  ∧ (∀ fuel ln src dst pc prog st sv x xs,
       env st !! src = Some sv →
       val_repr 0 (length (heap st)) (heap st) (AList (x :: xs)) sv →
       aval_size (AList xs) ≤ fuel →
       ∃ newHead h1,
         execute fuel (Instr_TAIL ln src dst) pc prog st
           = Some (Ok (pc + 1)%Z, {| heap := h1; env := <[dst := make_list newHead]> (env st) |}) ∧
         extends (heap st) h1 ∧
         list_repr (length (heap st)) (length h1) h1 xs newHead None)
  ∧ (∀ fuel ln listid id pc prog st lv,
       env st !! listid = Some lv → Value.type lv = VT_LIST → Value.list lv = None →
       execute fuel (Instr_HEAD ln listid id) pc prog st
         = Some (Throw {| kind := EmptyList;
                          what := line_msg ln ": HEAD on empty list: " listid |}, st))
  ∧ (∀ fuel ln listid id pc prog st lv x xs,
       env st !! listid = Some lv →
       val_repr 0 (length (heap st)) (heap st) (AList (x :: xs)) lv →
       aval_size x ≤ fuel →
       ∃ headval h1,
         execute fuel (Instr_HEAD ln listid id) pc prog st
           = Some (Ok (pc + 1)%Z, {| heap := h1; env := <[id := headval]> (env st) |}) ∧
         extends (heap st) h1 ∧
         val_repr (length (heap st)) (length h1) h1 x headval).
Proof.
  split_and!.
  - intros fuel ln src dst pc prog st sv Hsrc Hty Hl.
    unfold execute. rewrite (exists_Some _ _ _ Hsrc). simpl.
    rewrite Hsrc. simpl. by rewrite Hty, Hl.
  - intros fuel ln src dst pc prog st sv x xs Hsrc Hsv Hfuel.
    destruct Hsv as [Hty (a & node & Hl & Ha & Hnode & Hx & Hxs)].
    pose proof (tail_copy_spec fuel 0 _ _ xs _ (le_n _) Hxs) as Hs.
    destruct (copy_nodes (deep_copy fuel) fuel (ListNode.next node) None None (heap st))
      as [[newHead h1]|] eqn:Hcp; [|simpl in Hfuel; lia].
    exists newHead, h1. split; [|done].
    unfold execute. rewrite (exists_Some _ _ _ Hsrc). simpl.
    rewrite Hsrc. simpl. rewrite Hty, Hl, Hnode. simpl. by rewrite Hcp.
  - intros fuel ln listid id pc prog st lv Hlv Hty Hl.
    unfold execute. rewrite (exists_Some _ _ _ Hlv). simpl.
    rewrite Hlv. simpl. by rewrite Hty, Hl.
  - intros fuel ln listid id pc prog st lv x xs Hlv Hrep Hfuel.
    destruct Hrep as [Hty (a & node & Hl & Ha & Hnode & Hx & Hxs)].
    destruct (deep_copy_enough fuel x 0 _ _ _ (le_n _) Hx Hfuel) as (headval & h1 & Hdc).
    destruct (deep_copy_Some _ _ _ _ _ _ _ _ (le_n _) Hx Hdc) as [Hext Hv].
    exists headval, h1. split; [|done].
    unfold execute. rewrite (exists_Some _ _ _ Hlv). simpl.
    rewrite Hlv. simpl. rewrite Hty, Hl, Hnode. simpl. by rewrite Hdc.
Qed.

Lemma C6_head_empty_witness :
  execute 0 (Instr_HEAD 3 "l" "h") 3 []
          {| heap := []; env := <["h" := make_int 0]> (<["l" := make_list None]> ∅) |}
  = Some (Throw {| kind := EmptyList; what := line_msg 3 ": HEAD on empty list: " "l" |},
          {| heap := []; env := <["h" := make_int 0]> (<["l" := make_list None]> ∅) |}).
Proof.
  refine (proj1 (proj2 (proj2 C6_tail_total_head_partial)) 0 3%Z "l" "h" 3%Z []
           {| heap := []; env := <["h" := make_int 0]> (<["l" := make_list None]> ∅) |}
           (make_list None) _ _ _).
  - vm_compute. reflexivity.
  - reflexivity.
  - reflexivity.
Defined.

Lemma wrap64_range n : (- 2 ^ 63 ≤ wrap64 n < 2 ^ 63)%Z.
Proof. unfold wrap64. pose proof (Z.mod_pos_bound (n + 2 ^ 63) (2 ^ 64)). lia. Qed.

Lemma wrap64_congr n : ((wrap64 n - n) mod 2 ^ 64 = 0)%Z.
Proof.
  unfold wrap64. rewrite (Z.mod_eq (n + 2 ^ 63) (2 ^ 64)) by lia.
  replace (n + 2 ^ 63 - 2 ^ 64 * ((n + 2 ^ 63) `div` 2 ^ 64) - 2 ^ 63 - n)%Z
    with ((- ((n + 2 ^ 63) `div` 2 ^ 64)) * 2 ^ 64)%Z by lia.
  apply Z.mod_mul. lia.
Qed.

Lemma wrap64_id n : (- 2 ^ 63 ≤ n < 2 ^ 63)%Z → wrap64 n = n.
Proof. intros Hn. unfold wrap64. rewrite Z.mod_small by lia. lia. Qed.

(** C7: with a and b both declared and both integers, ADD a b stores in a the
    sum reduced to the 64-bit two's-complement range (the sum itself when it
    fits) and goes on, touching no other binding, so b keeps its value when it
    is another name; with a or b undeclared it throws the undefined-identifier
    error, with one of them a list the type error, and the store stays as it
    was. *)
Theorem C7_add_wraps :
  (∀ fuel ln a b pc prog st va vb,
     env st !! a = Some va → env st !! b = Some vb →
     Value.type va = VT_INT → Value.type vb = VT_INT →
     ∃ sum,
       execute fuel (Instr_ADD ln a b) pc prog st
         = Some (Ok (pc + 1)%Z,
                 {| heap := heap st;
                    env := <[a := Value.mk VT_INT sum (Value.list va)]> (env st) |}) ∧
       sum = wrap64 (Value.ival va + Value.ival vb) ∧
       (- 2 ^ 63 ≤ sum < 2 ^ 63)%Z ∧
       ((sum - (Value.ival va + Value.ival vb)) mod 2 ^ 64 = 0)%Z ∧
       ((- 2 ^ 63 ≤ Value.ival va + Value.ival vb < 2 ^ 63)%Z →
        sum = (Value.ival va + Value.ival vb)%Z) ∧
       (∀ c, c ≠ a →
             <[a := Value.mk VT_INT sum (Value.list va)]> (env st) !! c = env st !! c))
  ∧ (∀ fuel ln a b pc prog st,
       env st !! a = None ∨ env st !! b = None →
       ∃ e, execute fuel (Instr_ADD ln a b) pc prog st = Some (Throw e, st) ∧
            kind e = Undefined)
  ∧ (∀ fuel ln a b pc prog st va vb,
       env st !! a = Some va → env st !! b = Some vb →
       Value.type va = VT_LIST ∨ Value.type vb = VT_LIST →
       ∃ e, execute fuel (Instr_ADD ln a b) pc prog st = Some (Throw e, st) ∧
            kind e = TypeMismatch).
Proof.
  split_and!.
  - intros fuel ln a b pc prog st va vb Ha Hb Hta Htb.
    exists (wrap64 (Value.ival va + Value.ival vb)).
    split; [|split; [done|split; [apply wrap64_range|split; [apply wrap64_congr|split]]]].
    + unfold execute. rewrite (exists_Some _ _ _ Ha), (exists_Some _ _ _ Hb). simpl.
      rewrite Ha. simpl. rewrite Hb. simpl. by rewrite Hta, Htb.
    + apply wrap64_id.
    + intros c Hc. by apply lookup_insert_ne.
  - intros fuel ln a b pc prog st Hab. unfold execute.
    destruct (exists_ a (env st)) eqn:Ea; simpl; [|by eexists].
    destruct (exists_ b (env st)) eqn:Eb; simpl; [|by eexists].
    apply exists_true in Ea as [va Ha]. apply exists_true in Eb as [vb Hb].
    destruct Hab; congruence.
  - intros fuel ln a b pc prog st va vb Ha Hb Hty. unfold execute.
    rewrite (exists_Some _ _ _ Ha), (exists_Some _ _ _ Hb). simpl.
    rewrite Ha. simpl. rewrite Hb. simpl.
    destruct (Value.type va), (Value.type vb); try (by eexists); by destruct Hty.
Qed.

Lemma C7_add_witness :
  let e0 : Env := <["x" := make_int (2 ^ 63 - 1)]> (<["y" := make_int 3]> ∅) in
  ∃ sum,
    execute 0 (Instr_ADD 5 "x" "y") 5 [] {| heap := []; env := e0 |}
      = Some (Ok (5 + 1)%Z,
              {| heap := []; env := <["x" := Value.mk VT_INT sum None]> e0 |}) ∧
    sum = wrap64 (2 ^ 63 - 1 + 3) ∧
    (- 2 ^ 63 ≤ sum < 2 ^ 63)%Z ∧
    ((sum - (2 ^ 63 - 1 + 3)) mod 2 ^ 64 = 0)%Z ∧
    ((- 2 ^ 63 ≤ 2 ^ 63 - 1 + 3 < 2 ^ 63)%Z → sum = (2 ^ 63 - 1 + 3)%Z) ∧
    (∀ c, c ≠ "x" → <["x" := Value.mk VT_INT sum None]> e0 !! c = e0 !! c).
Proof.
  intros e0.
  refine (proj1 C7_add_wraps 0 5%Z "x" "y" 5%Z [] {| heap := []; env := e0 |}
            (make_int (2 ^ 63 - 1)) (make_int 3) _ _ _ _).
  - vm_compute. reflexivity.
  - vm_compute. reflexivity.
  - reflexivity.
  - reflexivity.
Defined.

(** C8: INTEGER id and LIST id bind an undeclared id to the integer 0 and to
    the empty list (a value of type list whose pointer is null) and leave the
    nodes as they were; on a declared id they throw the already-declared
    error and leave the store as it was; the program INTEGER x / INTEGER x
    fails on its second line. *)
Theorem C8_declarations :
  (∀ fuel ln id pc prog st,
     env st !! id = None →
     execute fuel (Instr_INTEGER ln id) pc prog st
       = Some (Ok (pc + 1)%Z,
               {| heap := heap st;
                  env := <[id := {| Value.type := VT_INT; Value.ival := 0;
                                    Value.list := None |}]> (env st) |}) ∧
     execute fuel (Instr_LIST ln id) pc prog st
       = Some (Ok (pc + 1)%Z,
               {| heap := heap st;
                  env := <[id := {| Value.type := VT_LIST; Value.ival := 0;
                                    Value.list := None |}]> (env st) |}) ∧
     (∀ st', execute fuel (Instr_INTEGER ln id) pc prog st = Some (Ok (pc + 1)%Z, st') →
             denotes st' id (AInt 0)) ∧
     (∀ st', execute fuel (Instr_LIST ln id) pc prog st = Some (Ok (pc + 1)%Z, st') →
             denotes st' id (AList [])))
  ∧ (∀ fuel ln id pc prog st,
       is_Some (env st !! id) →
       execute fuel (Instr_INTEGER ln id) pc prog st
         = Some (Throw {| kind := AlreadyDeclared;
                          what := line_msg ln ": Identifier already declared: " id |}, st) ∧
       execute fuel (Instr_LIST ln id) pc prog st
         = Some (Throw {| kind := AlreadyDeclared;
                          what := line_msg ln ": Identifier already declared: " id |}, st))
  ∧ run_loop 2 0 [Instr_INTEGER 1 "x"; Instr_INTEGER 2 "x"] 1 empty_store
    = Some (Failed {| kind := AlreadyDeclared;
                      what := "Line 2: Identifier already declared: x" |}
                   {| heap := [];
                      env := <["x" := {| Value.type := VT_INT; Value.ival := 0;
                                         Value.list := None |}]> ∅ |}).
Proof.
  split_and!.
  - intros fuel ln id pc prog st Hid. apply exists_false in Hid.
    unfold execute. rewrite Hid. split_and!; [done|done| |].
    + intros st' Hst'. simplify_eq. eexists. split; [apply lookup_insert_eq|done].
    + intros st' Hst'. simplify_eq. eexists. split; [apply lookup_insert_eq|done].
  - intros fuel ln id pc prog st Hid. apply exists_true in Hid.
    unfold execute. by rewrite Hid.
  - vm_compute. reflexivity.
Qed.

Lemma C8_declarations_witness :
  execute 0 (Instr_INTEGER 1 "x") 1 [] empty_store
    = Some (Ok (1 + 1)%Z,
            {| heap := [];
               env := <["x" := {| Value.type := VT_INT; Value.ival := 0;
                                  Value.list := None |}]> ∅ |}) ∧
  execute 0 (Instr_LIST 1 "x") 1 [] empty_store
    = Some (Ok (1 + 1)%Z,
            {| heap := [];
               env := <["x" := {| Value.type := VT_LIST; Value.ival := 0;
                                  Value.list := None |}]> ∅ |}) ∧
  (∀ st', execute 0 (Instr_INTEGER 1 "x") 1 [] empty_store = Some (Ok (1 + 1)%Z, st') →
          denotes st' "x" (AInt 0)) ∧
  (∀ st', execute 0 (Instr_LIST 1 "x") 1 [] empty_store = Some (Ok (1 + 1)%Z, st') →
          denotes st' "x" (AList [])).
Proof.
  refine (proj1 C8_declarations 0 1%Z "x" 1%Z [] empty_store _).
  vm_compute. reflexivity.
Defined.

(** C9: whatever an instruction does, every identifier that was declared
    before it is declared after it, and so it is from any point of a run to
    any later point and to the end of the run. *)
Theorem C9_no_binding_removed :
  (∀ fuel ins pc prog st r st',
     execute fuel ins pc prog st = Some (r, st') → dom (env st) ⊆ dom (env st'))
  ∧ (∀ fuel prog pc st pc' st',
       steps_to fuel prog pc st pc' st' → dom (env st) ⊆ dom (env st'))
  ∧ (∀ steps fuel prog pc st ex,
       run_loop steps fuel prog pc st = Some ex → dom (env st) ⊆ dom (env (exit_store ex))).
Proof.
  split_and!.
  - apply execute_dom.
  - intros fuel prog pc st pc' st'.
    induction 1 as [|pc st ins next st1 pc' st' _ _ Hex _ _ IH]; [done|].
    pose proof (execute_dom _ _ _ _ _ _ _ Hex). set_solver.
  - apply run_loop_dom.
Qed.

Lemma C9_no_binding_removed_witness :
  dom (<["x" := make_int 0]> (∅ : Env)) ⊆ dom (<["x" := make_int 7]> (<["x" := make_int 0]> (∅ : Env))).
Proof.
  refine (proj1 C9_no_binding_removed 0 (Instr_ASSIGN 2 "x" 7) 2%Z []
            {| heap := []; env := <["x" := make_int 0]> ∅ |} (Ok 3%Z)
            {| heap := []; env := <["x" := make_int 7]> (<["x" := make_int 0]> ∅) |} _).
  vm_compute. reflexivity.
Defined.

(** C10: an instruction that throws leaves the table exactly as it found it,
    and (in a sound store) every node that the table reaches as well; and in
    a sound store every instruction does return or throw, given enough fuel. *)
Theorem C10_error_atomicity :
  (∀ fuel ins pc prog st e st',
     execute fuel ins pc prog st = Some (Throw e, st') →
     env st' = env st ∧ (wf st → extends (heap st) (heap st') ∧ wf st'))
  ∧ (∀ ins pc prog st,
       wf st → ∃ fuel0, ∀ fuel, fuel0 ≤ fuel → is_Some (execute fuel ins pc prog st)).
Proof.
  split.
  - intros fuel ins pc prog st e st' Hex. split; [by eapply execute_throw_env|].
    intros Hwf. destruct (execute_wf _ _ _ _ _ _ _ Hwf Hex). by split.
  - apply execute_total.
Qed.

Lemma C10_error_atomicity_witness :
  let st := {| heap := []; env := <["a" := make_int 1]> (<["n" := make_int 0]> ∅) |} in
  ∃ e st', execute 1 (Instr_MERGE 3 "a" "n") 3 [] st = Some (Throw e, st') ∧
           kind e = NotAList ∧ env st' = env st.
Proof.
  intros st. eexists _, _. split; [vm_compute; reflexivity|]. split; [reflexivity|].
  refine (proj1 (proj1 C10_error_atomicity 1 (Instr_MERGE 3 "a" "n") 3%Z [] st _ _ _)).
  vm_compute. reflexivity.
Defined.

(** C2, as stated, fails: with x holding 1 the instruction IF x 99 on line 3
    of a four-line program does not throw although 99 is no line of the
    program; it goes on to line 4. *)
Lemma C2_counterexample :
  (99 >? Z.of_nat (length [Instr_INTEGER 1 "x"; Instr_ASSIGN 2 "x" 1;
                           Instr_IF 3 "x" 99; Instr_HLT 4]))%Z = true ∧
  execute 0 (Instr_IF 3 "x" 99) 3
          [Instr_INTEGER 1 "x"; Instr_ASSIGN 2 "x" 1; Instr_IF 3 "x" 99; Instr_HLT 4]
          {| heap := []; env := <["x" := make_int 1]> ∅ |}
  = Some (Ok 4%Z, {| heap := []; env := <["x" := make_int 1]> ∅ |}) ∧
  ¬ (∀ fuel ln id L pc prog st val,
       env st !! id = Some val → ¬ (1 ≤ L ≤ Z.of_nat (length prog))%Z →
       ∃ e st', execute fuel (Instr_IF ln id L) pc prog st = Some (Throw e, st') ∧
                kind e = JumpOutOfRange).
Proof.
  split; [reflexivity|]. split; [vm_compute; reflexivity|].
  intros Hall.
  destruct (Hall 0 3%Z "x" 99%Z 3%Z
              [Instr_INTEGER 1 "x"; Instr_ASSIGN 2 "x" 1; Instr_IF 3 "x" 99; Instr_HLT 4]
              {| heap := []; env := <["x" := make_int 1]> ∅ |} (make_int 1))
    as (e & st' & Hex & _).
  - vm_compute. reflexivity.
  - simpl. lia.
  - vm_compute in Hex. discriminate Hex.
Qed.

(** C2, amended: with id declared, IF id L looks at the target only when the
    value of id is the integer 0 or the empty list; then it jumps to L if
    1 <= L <= program length and throws the out-of-range error otherwise.
    For any other value it goes on to the next line, whatever L is.  The
    store is never changed. *)
Theorem C2_if_checks_target_only_when_jumping fuel ln id L pc prog st val :
  env st !! id = Some val →
  execute fuel (Instr_IF ln id L) pc prog st
  = Some (if falsy val
          then if decide (1 ≤ L ≤ Z.of_nat (length prog))%Z then Ok L
               else Throw {| kind := JumpOutOfRange;
                             what := line_msg ln ": IF jump out of range: " (to_string L) |}
          else Ok (pc + 1)%Z, st)
  ∧ (falsy val = true ↔
     (Value.type val = VT_INT ∧ Value.ival val = 0%Z) ∨
     (Value.type val = VT_LIST ∧ Value.list val = None)).
Proof.
  intros Hid. split.
  - unfold execute. rewrite (exists_Some _ _ _ Hid). simpl. rewrite Hid. simpl.
    fold (falsy val). destruct (falsy val); [|done].
    destruct (decide (1 ≤ L ≤ Z.of_nat (length prog))%Z) as [Hin|Hout].
    + replace ((L <? 1)%Z || (L >? Z.of_nat (length prog))%Z) with false; [done|].
      symmetry. apply orb_false_intro; lia.
    + replace ((L <? 1)%Z || (L >? Z.of_nat (length prog))%Z) with true; [done|].
      symmetry. apply orb_true_iff. lia.
  - unfold falsy. destruct (Value.type val).
    + rewrite Z.eqb_eq. split; [by left|]. by intros [[_ H]|[H _]].
    + rewrite bool_decide_eq_true. split; [by right|]. by intros [[H _]|[_ H]].
Qed.

Lemma C2_if_witness :
  execute 0 (Instr_IF 2 "z" 7) 2 [Instr_INTEGER 1 "z"; Instr_IF 2 "z" 7]
          {| heap := []; env := <["z" := make_int 0]> ∅ |}
  = Some (Throw {| kind := JumpOutOfRange; what := "Line 2: IF jump out of range: 7" |},
          {| heap := []; env := <["z" := make_int 0]> ∅ |}).
Proof.
  refine (proj1 (C2_if_checks_target_only_when_jumping 0 2%Z "z" 7%Z 2%Z
                   [Instr_INTEGER 1 "z"; Instr_IF 2 "z" 7]
                   {| heap := []; env := <["z" := make_int 0]> ∅ |} (make_int 0) _)).
  vm_compute. reflexivity.
Defined.

(** C3, the failing input: the operand 9x is no valid name and INTEGER 9x is
    rejected for it, yet ASSIGN 9x 5 parses, loads and runs, and so do the
    other opcodes that take a name. *)
Theorem C3_identifier_checked_for_declarations_only :
  is_identifier "9x" = false ∧
  parse_line "INTEGER 9x" 1
    = Throw {| kind := ParseError; what := "Line 1: invalid identifier: 9x" |} ∧
  parse_line "LIST 9x" 1
    = Throw {| kind := ParseError; what := "Line 1: invalid identifier: 9x" |} ∧
  parse_line "ASSIGN 9x 5" 1 = Ok (Some (Instr_ASSIGN 1 "9x" 5)) ∧
  parse_line "CHS 9x" 1 = Ok (Some (Instr_CHS 1 "9x")) ∧
  parse_line "MERGE 9x 8y" 1 = Ok (Some (Instr_MERGE 1 "9x" "8y")) ∧
  parse_line "IF 9x 1" 1 = Ok (Some (Instr_IF 1 "9x" 1)) ∧
  load_program (λ _, Some "ASSIGN 9x 5") "p" = Ok [Instr_ASSIGN 1 "9x" 5] ∧
  main 1 1 (λ _, Some "ASSIGN 9x 5") ["ppl"; "p"]
    = Some (0%Z, {| out := ["9x = 5"]; err := [] |}).
Proof. repeat split; vm_compute; reflexivity. Qed.

(** ** Diagnostics and exit codes *)

Lemma line_msg_colon ln msg id :
  line_msg ln (": " +:+ msg) id = "Line " +:+ to_string ln +:+ ": " +:+ msg +:+ id.
Proof. done. Qed.


Lemma parse_line_lineNo line lineno ins :
  parse_line line lineno = Ok (Some ins) → lineNo_of ins = lineno.
Proof.
  unfold parse_line, parse_error. intros H.
  repeat (case_match; try discriminate); by simplify_eq.
Qed.

Lemma load_lines_lineNo lines : ∀ lineno prog i ins,
  load_lines lines lineno = Ok prog → prog !! i = Some (Some ins) →
  lineNo_of ins = (lineno + Z.of_nat i + 1)%Z.
Proof.
  induction lines as [|line rest IH]; intros lineno prog i ins; simpl.
  - by intros [= <-].
  - destruct (trim line) as [trimmed|].
    + destruct (parse_line trimmed (lineno + 1)) as [o|e] eqn:Hp; [|done].
      destruct (load_lines rest (lineno + 1)) as [prog'|e] eqn:Hl; [|done].
      intros [= <-]. destruct i as [|i]; simpl.
      * intros [= ->]. apply parse_line_lineNo in Hp. lia.
      * intros Hi. rewrite (IH _ _ _ _ Hl Hi). lia.
    + destruct (load_lines rest (lineno + 1)) as [prog'|e] eqn:Hl; [|done].
      intros [= <-]. destruct i as [|i]; simpl; [done|].
      intros Hi. rewrite (IH _ _ _ _ Hl Hi). lia.
Qed.

(** In a loaded program the instruction on line n carries the number n. *)
Lemma load_program_lineNo fs filename prog i ins :
  load_program fs filename = Ok prog → prog !! i = Some ins →
  lineNo_of ins = (Z.of_nat i + 1)%Z.
Proof.
  unfold load_program. destruct (fs filename) as [content|]; [|done].
  destruct (load_lines (getlines content) 0) as [prog0|e] eqn:Hl; [|done].
  intros [= <-]. unfold fill_nops. rewrite list_lookup_imap.
  destruct (prog0 !! i) as [[ins0|]|] eqn:Hi; simpl; [| |done].
  - intros [= <-]. by rewrite (load_lines_lineNo _ _ _ _ _ Hl Hi).
  - by intros [= <-].
Qed.



(** * Further properties of the interpreter *)

(** ** Copies *)

Lemma lseg_inj (R R' : AVal → Value → Prop) lo hi lo' hi' (h : Heap) xs :
  Forall (λ x, ∀ y w, R x w → R' y w → x = y) xs →
  ∀ ys p q, lseg R lo hi h xs p q → lseg R' lo' hi' h ys p q →
            length xs = length ys → xs = ys.
Proof.
  induction 1 as [|x xs Hx _ IH]; intros [|y ys] p q Hxs Hys Hlen; try done.
  destruct Hxs as (a & node & -> & _ & Hnode & Hv & Hrest).
  destruct Hys as (a' & node' & [= <-] & _ & Hnode' & Hv' & Hrest').
  rewrite Hnode in Hnode'. injection Hnode' as <-.
  f_equal; [by eapply Hx|]. eapply IH; [done..|]. simpl in Hlen. lia.
Qed.

(** A chain that ends in the null pointer has one length only. *)
Lemma lseg_null_length (R R' : AVal → Value → Prop) lo hi lo' hi' (h : Heap) xs :
  ∀ ys p, lseg R lo hi h xs p None → lseg R' lo' hi' h ys p None →
          length xs = length ys.
Proof.
  induction xs as [|x xs IH]; intros [|y ys] p Hxs Hys; try done.
  - simpl in Hxs. subst p. by destruct Hys as (a & node & [=] & _).
  - simpl in Hys. subst p. by destruct Hxs as (a & node & [=] & _).
  - destruct Hxs as (a & node & -> & _ & Hnode & _ & Hrest).
    destruct Hys as (a' & node' & [= <-] & _ & Hnode' & _ & Hrest').
    rewrite Hnode in Hnode'. injection Hnode' as <-.
    simpl. f_equal. by eapply IH.
Qed.

(** A value denotes at most one thing. *)
Lemma val_repr_inj x : ∀ y lo hi lo' hi' (h : Heap) val,
  val_repr lo hi h x val → val_repr lo' hi' h y val → x = y.
Proof.
  induction x as [n|xs IH] using AVal_ind; intros [m|ys] lo hi lo' hi' h val;
    simpl; try (intros [H1 _] [H2 _]; congruence).
  - intros [_ <-] [_ <-]. done.
  - intros [_ Hxs] [_ Hys]. f_equal.
    eapply lseg_inj; [|exact Hxs|exact Hys|by eapply lseg_null_length].
    eapply Forall_impl; [exact IH|]. simpl. intros x Hx y w Hw Hw'.
    by eapply Hx.
Qed.

Lemma denotes_inj st id x y : denotes st id x → denotes st id y → x = y.
Proof.
  intros (val & Hid & Hx) (val' & Hid' & Hy). rewrite Hid in Hid'.
  injection Hid' as <-. by eapply val_repr_inj.
Qed.

(** X1: [deep_copy] of a sound value returns as soon as the fuel reaches the
    size of the value; it changes no node of the store, its result denotes the
    same value through nodes that did not exist before, and the original
    still denotes what it did. *)
Theorem X1_deep_copy_is_a_fresh_equal_value fuel x lo hi (h : Heap) val :
  hi ≤ length h → val_repr lo hi h x val → aval_size x ≤ fuel →
  ∃ val' h',
    deep_copy fuel val h = Some (val', h') ∧
    extends h h' ∧
    val_repr (length h) (length h') h' x val' ∧
    val_repr lo hi h' x val.
Proof.
  intros Hhi Hx Hfuel.
  destruct (deep_copy_enough fuel x lo hi h val Hhi Hx Hfuel) as (val' & h' & Hdc).
  destruct (deep_copy_Some _ _ _ _ _ _ _ _ Hhi Hx Hdc) as [Hext Hv].
  exists val', h'. split_and!; [done..|]. by eapply val_repr_extends.
Qed.

Lemma X1_deep_copy_witness :
  ∃ val' h',
    deep_copy 3 (make_list (Some 1))
              [ListNode.mk (make_int 7) None; ListNode.mk (make_list (Some 0)) None]
      = Some (val', h') ∧
    extends [ListNode.mk (make_int 7) None; ListNode.mk (make_list (Some 0)) None] h' ∧
    val_repr 2 (length h') h' (AList [AList [AInt 7]]) val' ∧
    val_repr 0 2 h' (AList [AList [AInt 7]]) (make_list (Some 1)).
Proof.
  refine (X1_deep_copy_is_a_fresh_equal_value 3 (AList [AList [AInt 7]]) 0 2
            [ListNode.mk (make_int 7) None; ListNode.mk (make_list (Some 0)) None]
            (make_list (Some 1)) _ _ _).
  - simpl. lia.
  - split; [done|]. exists 1, (ListNode.mk (make_list (Some 0)) None).
    split_and!; [done|lia|lia|done| |done].
    split; [done|]. exists 0, (ListNode.mk (make_int 7) None).
    split_and!; [done|lia|lia|done|done|done].
  - vm_compute. lia.
Defined.

(** ** What the list instructions do to the denoted values *)

Lemma denotes_grow st h' e' id x val :
  extends (heap st) h' → e' !! id = Some val → env st !! id = Some val →
  denotes st id x → denotes {| heap := h'; env := e' |} id x.
Proof.
  intros Hext He' He (val' & Hid & Hx). rewrite He in Hid. injection Hid as <-.
  exists val. split; [done|]. by eapply val_repr_grow.
Qed.

Lemma exec_MERGE_denotes fuel ln src dst pc prog st x xs :
  denotes st src x → denotes st dst (AList xs) → aval_size x ≤ fuel →
  ∃ st', execute fuel (Instr_MERGE ln src dst) pc prog st = Some (Ok (pc + 1)%Z, st') ∧
         extends (heap st) (heap st') ∧
         denotes st' dst (AList (x :: xs)) ∧
         (∀ id, id ≠ dst → env st' !! id = env st !! id).
Proof.
  intros (vs & Hsrc & Hx) (vd & Hdst & [Hty Hxs]) Hfuel.
  destruct (deep_copy_enough fuel x 0 _ _ vs (le_n _) Hx Hfuel) as (vcopy & h1 & Hdc).
  destruct (deep_copy_Some _ _ _ _ _ _ _ _ (le_n _) Hx Hdc) as [Hext Hv].
  eexists. split_and!.
  - unfold execute. rewrite (exists_Some _ _ _ Hsrc), (exists_Some _ _ _ Hdst). simpl.
    rewrite Hsrc. simpl. rewrite Hdc. simpl. rewrite Hdst. simpl. rewrite Hty.
    reflexivity.
  - simpl. eapply extends_trans; [done|apply extends_app].
  - eexists. split; [apply lookup_insert_eq|]. simpl. by eapply prepend_repr.
  - intros id Hne. simpl. by apply lookup_insert_ne.
Qed.

Lemma exec_HEAD_denotes fuel ln listid id pc prog st x xs :
  denotes st listid (AList (x :: xs)) → aval_size x ≤ fuel →
  ∃ st', execute fuel (Instr_HEAD ln listid id) pc prog st = Some (Ok (pc + 1)%Z, st') ∧
         extends (heap st) (heap st') ∧
         denotes st' id x ∧
         (∀ id', id' ≠ id → env st' !! id' = env st !! id').
Proof.
  intros (lv & Hlv & [Hty (a & node & Hl & Ha & Hnode & Hx & Hxs)]) Hfuel.
  destruct (deep_copy_enough fuel x 0 _ _ _ (le_n _) Hx Hfuel) as (headval & h1 & Hdc).
  destruct (deep_copy_Some _ _ _ _ _ _ _ _ (le_n _) Hx Hdc) as [Hext Hv].
  eexists. split_and!.
  - unfold execute. rewrite (exists_Some _ _ _ Hlv). simpl.
    rewrite Hlv. simpl. rewrite Hty, Hl, Hnode. simpl. rewrite Hdc. reflexivity.
  - done.
  - eexists. split; [apply lookup_insert_eq|]. simpl.
    eapply val_repr_widen; [| |exact Hv]; lia.
  - intros id' Hne. simpl. by apply lookup_insert_ne.
Qed.

Lemma exec_TAIL_denotes fuel ln src dst pc prog st x xs :
  denotes st src (AList (x :: xs)) → aval_size (AList xs) ≤ fuel →
  ∃ st', execute fuel (Instr_TAIL ln src dst) pc prog st = Some (Ok (pc + 1)%Z, st') ∧
         extends (heap st) (heap st') ∧
         denotes st' dst (AList xs) ∧
         (∀ id', id' ≠ dst → env st' !! id' = env st !! id').
Proof.
  intros (sv & Hsv & [Hty (a & node & Hl & Ha & Hnode & Hx & Hxs)]) Hfuel.
  pose proof (tail_copy_spec fuel 0 _ _ xs _ (le_n _) Hxs) as Hs.
  destruct (copy_nodes (deep_copy fuel) fuel (ListNode.next node) None None (heap st))
    as [[newHead h1]|] eqn:Hcp; [|simpl in Hfuel; lia].
  destruct Hs as [Hext Hrep].
  eexists. split_and!.
  - unfold execute. rewrite (exists_Some _ _ _ Hsv). simpl.
    rewrite Hsv. simpl. rewrite Hty, Hl, Hnode. simpl. rewrite Hcp. reflexivity.
  - done.
  - eexists. split; [apply lookup_insert_eq|]. simpl. split; [done|].
    eapply list_repr_widen; [| |exact Hrep]; lia.
  - intros id' Hne. simpl. by apply lookup_insert_ne.
Qed.

(** X3: COPY src dst, with src a sound list, returns once the fuel reaches
    the size of the list and binds dst (declared or not) to a list that
    denotes the same elements through nodes that did not exist before, so it
    shares no node with src; no node of the store changes and no other
    binding does.  With src undeclared it throws the undefined-identifier
    error, with src an integer the not-a-list error, and the store stays as it
    was. *)
Theorem X3_copy_binds_a_fresh_equal_list :
  (∀ fuel ln src dst pc prog st sv xs,
     env st !! src = Some sv →
     val_repr 0 (length (heap st)) (heap st) (AList xs) sv →
     aval_size (AList xs) ≤ fuel →
     ∃ copy h1,
       execute fuel (Instr_COPY ln src dst) pc prog st
         = Some (Ok (pc + 1)%Z, {| heap := h1; env := <[dst := copy]> (env st) |}) ∧
       extends (heap st) h1 ∧
       val_repr (length (heap st)) (length h1) h1 (AList xs) copy ∧
       denotes {| heap := h1; env := <[dst := copy]> (env st) |} dst (AList xs) ∧
       (src ≠ dst →
        denotes {| heap := h1; env := <[dst := copy]> (env st) |} src (AList xs)))
  ∧ (∀ fuel ln src dst pc prog st,
       env st !! src = None →
       ∃ e, execute fuel (Instr_COPY ln src dst) pc prog st = Some (Throw e, st) ∧
            kind e = Undefined)
  ∧ (∀ fuel ln src dst pc prog st sv,
       env st !! src = Some sv → Value.type sv = VT_INT →
       ∃ e, execute fuel (Instr_COPY ln src dst) pc prog st = Some (Throw e, st) ∧
            kind e = NotAList).
Proof.
  split_and!.
  - intros fuel ln src dst pc prog st sv xs Hsrc Hx Hfuel.
    destruct (deep_copy_enough fuel _ 0 _ _ sv (le_n _) Hx Hfuel) as (copy & h1 & Hdc).
    destruct (deep_copy_Some _ _ _ _ _ _ _ _ (le_n _) Hx Hdc) as [Hext Hv].
    destruct Hx as [Hty Hxs].
    exists copy, h1. split_and!; [|done|done| |].
    + unfold execute. rewrite (exists_Some _ _ _ Hsrc). simpl.
      rewrite Hsrc. simpl. rewrite Hty, Hdc. reflexivity.
    + exists copy. split; [apply lookup_insert_eq|]. cbn [heap].
      apply (val_repr_widen (length (heap st)) (length h1) _ _ _ (AList xs));
        [lia|lia|done].
    + intros Hne. exists sv. split; [cbn [env]; by rewrite lookup_insert_ne|]. cbn [heap].
      apply (val_repr_grow (heap st) _ (AList xs)); [done|]. by split.
  - intros fuel ln src dst pc prog st Hsrc. apply exists_false in Hsrc.
    unfold execute. rewrite Hsrc. simpl. by eexists.
  - intros fuel ln src dst pc prog st sv Hsrc Hty.
    unfold execute. rewrite (exists_Some _ _ _ Hsrc). simpl.
    rewrite Hsrc. simpl. rewrite Hty. by eexists.
Qed.

Lemma X3_copy_witness :
  let st := {| heap := [ListNode.mk (make_int 7) None];
               env := <["l" := make_list (Some 0)]> ∅ |} in
  ∃ copy h1,
    execute 2 (Instr_COPY 2 "l" "m") 2 [] st
      = Some (Ok (2 + 1)%Z, {| heap := h1; env := <["m" := copy]> (env st) |}) ∧
    extends (heap st) h1 ∧
    val_repr 1 (length h1) h1 (AList [AInt 7]) copy ∧
    denotes {| heap := h1; env := <["m" := copy]> (env st) |} "m" (AList [AInt 7]) ∧
    ("l" ≠ "m" →
     denotes {| heap := h1; env := <["m" := copy]> (env st) |} "l" (AList [AInt 7])).
Proof.
  intros st.
  refine (proj1 X3_copy_binds_a_fresh_equal_list 2 2%Z "l" "m" 2%Z [] st
            (make_list (Some 0)) [AInt 7] _ _ _).
  - vm_compute. reflexivity.
  - split; [done|]. exists 0, (ListNode.mk (make_int 7) None).
    split_and!; [done|simpl; lia|simpl; lia|done|done|done].
  - vm_compute. lia.
Defined.

(** X4: the list instructions obey the laws of lists.  After MERGE src l,
    HEAD l id gives id the value src had and TAIL l dst gives dst the list l
    had before. *)
Theorem X4_head_and_tail_undo_merge fuel ln1 ln2 src l id pc1 pc2 prog st x xs :
  denotes st src x → denotes st l (AList xs) →
  aval_size (AList (x :: xs)) ≤ fuel →
  ∃ st1 st2 st3,
    execute fuel (Instr_MERGE ln1 src l) pc1 prog st = Some (Ok (pc1 + 1)%Z, st1) ∧
    execute fuel (Instr_HEAD ln2 l id) pc2 prog st1 = Some (Ok (pc2 + 1)%Z, st2) ∧
    denotes st2 id x ∧
    execute fuel (Instr_TAIL ln2 l id) pc2 prog st1 = Some (Ok (pc2 + 1)%Z, st3) ∧
    denotes st3 id (AList xs).
Proof.
  intros Hsrc Hl Hfuel.
  assert (Hsz : aval_size x ≤ fuel ∧ aval_size (AList xs) ≤ fuel).
  { change (S (aval_size x + sum_list (aval_size <$> xs)) ≤ fuel) in Hfuel.
    simpl. lia. }
  destruct Hsz as [Hsx Hsxs].
  destruct (exec_MERGE_denotes fuel ln1 src l pc1 prog st x xs Hsrc Hl Hsx)
    as (st1 & Hm & _ & Hl1 & _).
  destruct (exec_HEAD_denotes fuel ln2 l id pc2 prog st1 x xs Hl1 Hsx)
    as (st2 & Hh & _ & Hid & _).
  destruct (exec_TAIL_denotes fuel ln2 l id pc2 prog st1 x xs Hl1 Hsxs)
    as (st3 & Ht & _ & Hid3 & _).
  by exists st1, st2, st3.
Qed.

Lemma X4_head_and_tail_witness :
  let st := {| heap := [ListNode.mk (make_int 7) None];
               env := <["a" := make_int 5]> (<["l" := make_list (Some 0)]> ∅) |} in
  ∃ st1 st2 st3,
    execute 3 (Instr_MERGE 3 "a" "l") 3 [] st = Some (Ok (3 + 1)%Z, st1) ∧
    execute 3 (Instr_HEAD 4 "l" "r") 4 [] st1 = Some (Ok (4 + 1)%Z, st2) ∧
    denotes st2 "r" (AInt 5) ∧
    execute 3 (Instr_TAIL 4 "l" "r") 4 [] st1 = Some (Ok (4 + 1)%Z, st3) ∧
    denotes st3 "r" (AList [AInt 7]).
Proof.
  intros st.
  refine (X4_head_and_tail_undo_merge 3 3%Z 4%Z "a" "l" "r" 3%Z 4%Z [] st
            (AInt 5) [AInt 7] _ _ _).
  - exists (make_int 5). split; [vm_compute; reflexivity|done].
  - exists (make_list (Some 0)). split; [vm_compute; reflexivity|].
    split; [done|]. exists 0, (ListNode.mk (make_int 7) None).
    split_and!; [done|simpl; lia|simpl; lia|done|done|done].
  - vm_compute. lia.
Defined.

(** X5: a run never damages the store.  From a sound store, every state a run
    passes through and the state it ends in are sound (every variable denotes
    a finite value: no dangling pointer, no cycle), and every node that
    existed keeps its content: the instructions build new nodes and never
    write to one that a variable can reach. *)
Theorem X5_run_keeps_store_sound :
  (∀ fuel prog pc st pc' st',
     wf st → steps_to fuel prog pc st pc' st' →
     wf st' ∧ extends (heap st) (heap st'))
  ∧ (∀ steps fuel prog pc st ex,
       wf st → run_loop steps fuel prog pc st = Some ex →
       wf (exit_store ex) ∧ extends (heap st) (heap (exit_store ex))).
Proof.
  split.
  - intros fuel prog pc st pc' st' Hwf Hsteps. revert Hwf.
    induction Hsteps as [|pc st ins next st1 pc' st' _ _ Hex _ _ IH]; intros Hwf.
    { split; [done|apply extends_refl]. }
    destruct (execute_wf _ _ _ _ _ _ _ Hwf Hex) as [Hwf1 Hext1].
    destruct (IH Hwf1) as [Hwf' Hext']. split; [done|by eapply extends_trans].
  - intros steps fuel prog pc st ex Hwf.
    apply (run_loop_inv (λ st', wf st' ∧ extends (heap st) (heap st')));
      [|split; [done|apply extends_refl]].
    intros ins pc' st0 r st1 [Hwf0 Hext0] Hex.
    destruct (execute_wf _ _ _ _ _ _ _ Hwf0 Hex) as [Hwf1 Hext1].
    split; [done|by eapply extends_trans].
Qed.

Lemma X5_run_keeps_store_sound_witness :
  wf scenario_B_final ∧ extends [] (heap scenario_B_final).
Proof.
  refine (proj2 X5_run_keeps_store_sound 7 2 scenario_B 1%Z empty_store
            (Halted scenario_B_final) wf_empty _).
  vm_compute. reflexivity.
Defined.

(** ** Arithmetic *)

Lemma wrap64_decomp n : ∃ k, wrap64 n = (n + k * 2 ^ 64)%Z.
Proof.
  exists (- ((n + 2 ^ 63) `div` 2 ^ 64))%Z. unfold wrap64.
  rewrite (Z.mod_eq (n + 2 ^ 63) (2 ^ 64)) by lia. lia.
Qed.

Lemma wrap64_unique n m k : int64 m → n = (m + k * 2 ^ 64)%Z → wrap64 n = m.
Proof.
  unfold int64. intros Hm ->. unfold wrap64.
  replace (m + k * 2 ^ 64 + 2 ^ 63)%Z with (m + 2 ^ 63 + k * 2 ^ 64)%Z by lia.
  rewrite Z.mod_add by lia. rewrite Z.mod_small by lia. lia.
Qed.

Lemma wrap64_neg_neg n : int64 n → wrap64 (- wrap64 (- n)) = n.
Proof.
  intros Hn. destruct (wrap64_decomp (- n)) as [k Hk].
  apply (wrap64_unique _ _ (- k)); [done|]. lia.
Qed.

Lemma wrap64_add_sub n m : int64 n → wrap64 (wrap64 (n + m) + wrap64 (- m)) = n.
Proof.
  intros Hn. destruct (wrap64_decomp (n + m)) as [k1 Hk1].
  destruct (wrap64_decomp (- m)) as [k2 Hk2].
  apply (wrap64_unique _ _ (k1 + k2)); [done|]. lia.
Qed.

Lemma exec_CHS fuel ln id pc prog st val :
  env st !! id = Some val → Value.type val = VT_INT →
  execute fuel (Instr_CHS ln id) pc prog st
  = Some (Ok (pc + 1)%Z,
          {| heap := heap st;
             env := <[id := Value.mk VT_INT (wrap64 (- Value.ival val)) (Value.list val)]>
                      (env st) |}).
Proof.
  intros Hid Hty. unfold execute. rewrite (exists_Some _ _ _ Hid). simpl.
  rewrite Hid. simpl. by rewrite Hty.
Qed.

Lemma exec_ADD fuel ln a b pc prog st va vb :
  env st !! a = Some va → env st !! b = Some vb →
  Value.type va = VT_INT → Value.type vb = VT_INT →
  execute fuel (Instr_ADD ln a b) pc prog st
  = Some (Ok (pc + 1)%Z,
          {| heap := heap st;
             env := <[a := Value.mk VT_INT (wrap64 (Value.ival va + Value.ival vb))
                                    (Value.list va)]> (env st) |}).
Proof.
  intros Ha Hb Hta Htb. unfold execute.
  rewrite (exists_Some _ _ _ Ha), (exists_Some _ _ _ Hb). simpl.
  rewrite Ha. simpl. rewrite Hb. simpl. by rewrite Hta, Htb.
Qed.

(** X6: CHS id, with id an integer, stores the negation reduced to the
    64-bit range: the negation itself, except that the least [long long] stays
    what it is.  Executed twice it gives the store back as it was.  With id
    undeclared it throws the undefined-identifier error, with id a list the
    type error, and leaves the store alone. *)
Theorem X6_chs_negates_and_is_an_involution :
  (∀ fuel ln id pc pc' prog st val,
     env st !! id = Some val → Value.type val = VT_INT → int64 (Value.ival val) →
     ∃ st1 v1,
       execute fuel (Instr_CHS ln id) pc prog st = Some (Ok (pc + 1)%Z, st1) ∧
       env st1 !! id = Some v1 ∧ Value.type v1 = VT_INT ∧
       Value.ival v1 = (if decide (Value.ival val = - 2 ^ 63)%Z then (- 2 ^ 63)%Z
                        else (- Value.ival val)%Z) ∧
       execute fuel (Instr_CHS ln id) pc' prog st1 = Some (Ok (pc' + 1)%Z, st))
  ∧ (∀ fuel ln id pc prog st,
       env st !! id = None →
       ∃ e, execute fuel (Instr_CHS ln id) pc prog st = Some (Throw e, st) ∧
            kind e = Undefined)
  ∧ (∀ fuel ln id pc prog st val,
       env st !! id = Some val → Value.type val = VT_LIST →
       ∃ e, execute fuel (Instr_CHS ln id) pc prog st = Some (Throw e, st) ∧
            kind e = TypeMismatch).
Proof.
  split_and!.
  - intros fuel ln id pc pc' prog st val Hid Hty Hrange.
    eexists _, _. split; [by apply exec_CHS|]. split; [apply lookup_insert_eq|].
    split; [done|]. split.
    + simpl. unfold int64 in Hrange. case_decide as Hmin.
      * rewrite Hmin. reflexivity.
      * apply (wrap64_unique _ _ 0); [unfold int64|]; lia.
    + erewrite exec_CHS; [|apply lookup_insert_eq|done]. simpl.
      rewrite wrap64_neg_neg by done. rewrite insert_insert_eq.
      destruct st as [h e], val as [ty n l]. simpl in *. subst ty.
      by rewrite insert_id.
  - intros fuel ln id pc prog st Hid. apply exists_false in Hid.
    unfold execute. rewrite Hid. simpl. by eexists.
  - intros fuel ln id pc prog st val Hid Hty.
    unfold execute. rewrite (exists_Some _ _ _ Hid). simpl.
    rewrite Hid. simpl. rewrite Hty. by eexists.
Qed.

Lemma X6_chs_witness :
  let st := {| heap := []; env := <["x" := make_int (- 2 ^ 63)]> ∅ |} in
  ∃ st1 v1,
    execute 0 (Instr_CHS 2 "x") 2 [] st = Some (Ok (2 + 1)%Z, st1) ∧
    env st1 !! "x" = Some v1 ∧ Value.type v1 = VT_INT ∧
    Value.ival v1 = (if decide (- 2 ^ 63 = - 2 ^ 63)%Z then (- 2 ^ 63)%Z
                     else (- - 2 ^ 63)%Z) ∧
    execute 0 (Instr_CHS 2 "x") 3 [] st1 = Some (Ok (3 + 1)%Z, st).
Proof.
  intros st.
  refine (proj1 X6_chs_negates_and_is_an_involution 0 2%Z "x" 2%Z 3%Z [] st
            (make_int (- 2 ^ 63)) _ _ _).
  - vm_compute. reflexivity.
  - reflexivity.
  - unfold int64. simpl. lia.
Defined.

(** X7: ADD and CHS make a subtraction that undoes the addition, overflow or
    not: for two different integer variables a and b, the sequence ADD a b,
    CHS b, ADD a b, CHS b ends in the store it started from. *)
Theorem X7_add_then_subtract_restores fuel l1 l2 l3 l4 a b p1 p2 p3 p4 prog st va vb :
  a ≠ b →
  env st !! a = Some va → env st !! b = Some vb →
  Value.type va = VT_INT → Value.type vb = VT_INT →
  int64 (Value.ival va) → int64 (Value.ival vb) →
  ∃ st1 st2 st3,
    execute fuel (Instr_ADD l1 a b) p1 prog st = Some (Ok (p1 + 1)%Z, st1) ∧
    execute fuel (Instr_CHS l2 b) p2 prog st1 = Some (Ok (p2 + 1)%Z, st2) ∧
    execute fuel (Instr_ADD l3 a b) p3 prog st2 = Some (Ok (p3 + 1)%Z, st3) ∧
    execute fuel (Instr_CHS l4 b) p4 prog st3 = Some (Ok (p4 + 1)%Z, st).
Proof.
  intros Hab Ha Hb Hta Htb Hra Hrb.
  set (va1 := Value.mk VT_INT (wrap64 (Value.ival va + Value.ival vb)) (Value.list va)).
  set (vb1 := Value.mk VT_INT (wrap64 (- Value.ival vb)) (Value.list vb)).
  eexists _, _, _. split; [by apply exec_ADD|].
  split.
  { apply (exec_CHS _ _ _ _ _ _ vb); [|done]. simpl. by rewrite lookup_insert_ne. }
  split.
  { apply (exec_ADD _ _ _ _ _ _ _ va1 vb1); simpl; [|apply lookup_insert_eq|done|done].
    rewrite lookup_insert_ne by done. apply lookup_insert_eq. }
  rewrite (exec_CHS _ _ _ _ _ _ vb1);
    [|simpl; rewrite lookup_insert_ne by done; apply lookup_insert_eq|done].
  simpl. rewrite wrap64_add_sub by done. rewrite wrap64_neg_neg by done.
  destruct st as [h e], va as [tya na la], vb as [tyb nb lb]. simpl in *. subst tya tyb.
  match goal with |- context [{| heap := _; env := ?m |}] => replace m with e; [done|] end.
  symmetry. apply map_eq. intros i.
  destruct (decide (i = b)) as [->|Hib]; [by rewrite lookup_insert_eq|].
  rewrite lookup_insert_ne by done.
  destruct (decide (i = a)) as [->|Hia]; [by rewrite lookup_insert_eq|].
  rewrite !lookup_insert_ne by done. done.
Qed.

Lemma X7_add_then_subtract_witness :
  let st := {| heap := [];
               env := <["x" := make_int (2 ^ 63 - 1)]> (<["y" := make_int 5]> ∅) |} in
  ∃ st1 st2 st3,
    execute 0 (Instr_ADD 3 "x" "y") 3 [] st = Some (Ok (3 + 1)%Z, st1) ∧
    execute 0 (Instr_CHS 4 "y") 4 [] st1 = Some (Ok (4 + 1)%Z, st2) ∧
    execute 0 (Instr_ADD 5 "x" "y") 5 [] st2 = Some (Ok (5 + 1)%Z, st3) ∧
    execute 0 (Instr_CHS 6 "y") 6 [] st3 = Some (Ok (6 + 1)%Z, st).
Proof.
  intros st.
  refine (X7_add_then_subtract_restores 0 3%Z 4%Z 5%Z 6%Z "x" "y" 3%Z 4%Z 5%Z 6%Z [] st
            (make_int (2 ^ 63 - 1)) (make_int 5) _ _ _ _ _ _ _).
  - discriminate.
  - vm_compute. reflexivity.
  - vm_compute. reflexivity.
  - reflexivity.
  - reflexivity.
  - unfold int64. simpl. lia.
  - unfold int64. simpl. lia.
Defined.

(** ** Control *)

Lemma execute_next fuel ins pc prog st next st' :
  execute fuel ins pc prog st = Some (Ok next, st') →
  next = (pc + 1)%Z ∨ (1 ≤ next ≤ Z.of_nat (length prog))%Z ∨
  (next = (-1)%Z ∧ st' = st ∧ ∃ l, ins = Instr_HLT l).
Proof.
  intros H. destruct ins; exec_cases; try (by left).
  - right. left.
    match goal with Hb : _ || _ = false |- _ => apply orb_false_elim in Hb end. lia.
  - right. left.
    match goal with Hb : _ || _ = false |- _ => apply orb_false_elim in Hb end. lia.
  - right. right. eauto.
Qed.

Lemma run_loop_halted steps fuel prog : ∀ pc st st',
  (1 ≤ pc ≤ Z.of_nat (length prog) + 1)%Z →
  run_loop steps fuel prog pc st = Some (Halted st') →
  ∃ pc', steps_to fuel prog pc st pc' st' ∧
    (pc' = (Z.of_nat (length prog) + 1)%Z ∨
     ((1 ≤ pc' ≤ Z.of_nat (length prog))%Z ∧
      ∃ l, prog !! Z.to_nat (pc' - 1) = Some (Instr_HLT l))).
Proof.
  assert (Hend : ∀ (pc : Z) st,
            (1 ≤ pc ≤ Z.of_nat (length prog) + 1)%Z →
            (pc >? Z.of_nat (length prog))%Z = true →
            ∃ pc', steps_to fuel prog pc st pc' st ∧
              (pc' = (Z.of_nat (length prog) + 1)%Z ∨
               ((1 ≤ pc' ≤ Z.of_nat (length prog))%Z ∧
                ∃ l, prog !! Z.to_nat (pc' - 1) = Some (Instr_HLT l)))).
  { intros pc st Hpc Hgt. exists pc. split; [constructor|]. left. lia. }
  induction steps as [|n IH]; intros pc st st' Hpc.
  - simpl. destruct (pc <? 1)%Z eqn:Hlt; [lia|].
    destruct (pc >? Z.of_nat (length prog))%Z eqn:Hgt; [|done].
    intros [= <-]. by apply Hend.
  - rewrite run_loop_unfold. destruct (pc <? 1)%Z eqn:Hlt; [lia|].
    destruct (pc >? Z.of_nat (length prog))%Z eqn:Hgt.
    { intros [= <-]. by apply Hend. }
    destruct (prog !! Z.to_nat (pc - 1)) as [ins|] eqn:Hins; simpl; [|done].
    destruct (execute fuel ins pc prog st) as [[r st1]|] eqn:Hex; simpl; [|done].
    destruct r as [next|e]; [|done].
    pose proof (execute_next _ _ _ _ _ _ _ Hex) as Hnext.
    destruct (next =? -1)%Z eqn:Hn1.
    + intros [= <-]. destruct Hnext as [?|[?|(_ & -> & l & ->)]]; [lia|lia|].
      exists pc. split; [constructor|]. right. split; [lia|]. by exists l.
    + intros Hrun. destruct (IH next st1 st') as (pc' & Hsteps & Hpc'); [lia|done|].
      exists pc'. split; [|done]. eapply steps_to_step; [lia|done|done|lia|done].
Qed.

Lemma steps_to_pc fuel prog pc st pc' st' :
  steps_to fuel prog pc st pc' st' →
  (1 ≤ pc ≤ Z.of_nat (length prog) + 1)%Z → (1 ≤ pc' ≤ Z.of_nat (length prog) + 1)%Z.
Proof.
  induction 1 as [|pc st ins next st1 pc' st' Hpc Hins Hex Hn1 _ IH]; [done|].
  intros _. apply IH. apply lookup_lt_Some in Hins.
  destruct (execute_next _ _ _ _ _ _ _ Hex) as [?|[?|[? _]]]; lia.
Qed.

(** X8: the program counter never leaves the lines of the program but by one
    past the last ([run_program] never indexes outside the instruction
    vector), and a run that halts has either met HLT or walked past the last
    line, in the store that the last executed instruction left. *)
Theorem X8_run_halts_at_hlt_or_past_the_end :
  (∀ fuel prog st pc' st',
     steps_to fuel prog 1 st pc' st' → (1 ≤ pc' ≤ Z.of_nat (length prog) + 1)%Z)
  ∧ (∀ steps fuel prog st st',
       run_loop steps fuel prog 1 st = Some (Halted st') →
       ∃ pc', steps_to fuel prog 1 st pc' st' ∧
         (pc' = (Z.of_nat (length prog) + 1)%Z ∨
          ((1 ≤ pc' ≤ Z.of_nat (length prog))%Z ∧
           ∃ l, prog !! Z.to_nat (pc' - 1) = Some (Instr_HLT l)))).
Proof.
  split.
  - intros fuel prog st pc' st' Hsteps. apply (steps_to_pc _ _ _ _ _ _ Hsteps). lia.
  - intros steps fuel prog st st'. apply run_loop_halted. lia.
Qed.

Lemma X8_run_halts_witness :
  ∃ pc', steps_to 2 scenario_B 1 empty_store pc' scenario_B_final ∧
    (pc' = (Z.of_nat (length scenario_B) + 1)%Z ∨
     ((1 ≤ pc' ≤ Z.of_nat (length scenario_B))%Z ∧
      ∃ l, scenario_B !! Z.to_nat (pc' - 1) = Some (Instr_HLT l))).
Proof.
  refine (proj2 X8_run_halts_at_hlt_or_past_the_end 7 2 scenario_B empty_store
            scenario_B_final _).
  vm_compute. reflexivity.
Defined.

(** ** No integer leaves the machine range *)

Lemma heap_ints_app h node :
  heap_ints h → int64 (Value.ival (ListNode.v node)) → heap_ints (h ++ [node]).
Proof.
  intros Hh Hnode a n Ha. apply lookup_app_Some in Ha as [Ha|[_ Ha]]; [by eapply Hh|].
  apply list_lookup_singleton_Some in Ha as [_ <-]. done.
Qed.

Lemma heap_ints_set_next p q h : heap_ints h → heap_ints (set_next p q h).
Proof.
  intros Hh a n. unfold set_next. destruct (h !! p) as [node|] eqn:Hp; [|apply Hh].
  destruct (decide (a = p)) as [->|Hne].
  - rewrite list_lookup_insert_eq by (by eapply lookup_lt_Some).
    intros [= <-]. simpl. by eapply Hh.
  - rewrite list_lookup_insert_ne by done. apply Hh.
Qed.

Lemma copy_nodes_ints (ce : Value → Heap → option (Value * Heap)) :
  (∀ cv h vc h1, int64 (Value.ival cv) → heap_ints h → ce cv h = Some (vc, h1) →
                 int64 (Value.ival vc) ∧ heap_ints h1) →
  ∀ n cur pp head h head' h',
    heap_ints h → copy_nodes ce n cur pp head h = Some (head', h') → heap_ints h'.
Proof.
  intros Hce. induction n as [|n IH]; intros cur pp head h head' h' Hh;
    (destruct cur as [c|]; [|by intros [= _ <-]]); [done|].
  rewrite copy_nodes_unfold.
  destruct (h !! c) as [node|] eqn:Hc; simpl; [|done].
  destruct (ce (ListNode.v node) h) as [[vc h1]|] eqn:Hvc; simpl; [|done].
  destruct (Hce _ _ _ _ (Hh _ _ Hc) Hh Hvc) as [Hvcok Hh1].
  unfold make_shared.
  assert (Hh2 : heap_ints (h1 ++ [ListNode.mk vc None])) by by apply heap_ints_app.
  destruct (store_pp pp _ head _) as [hd h3] eqn:Hst.
  assert (Hh3 : heap_ints h3).
  { unfold store_pp in Hst. destruct pp; injection Hst as <- <-; [|done].
    by apply heap_ints_set_next. }
  destruct (h3 !! c) as [node'|]; simpl; [|done].
  by eapply IH.
Qed.

Lemma deep_copy_ints fuel : ∀ val h val' h',
  int64 (Value.ival val) → heap_ints h → deep_copy fuel val h = Some (val', h') →
  int64 (Value.ival val') ∧ heap_ints h'.
Proof.
  assert (H0 : int64 0) by (unfold int64; lia).
  induction fuel as [|f IH]; intros val h val' h' Hval Hh; [done|]. simpl.
  destruct (Value.type val); [by intros [= <- <-]|].
  destruct (Value.list val) as [c|]; [|by intros [= <- <-]].
  destruct (copy_nodes _ f (Some c) None None h) as [[head h1]|] eqn:Hcp; simpl; [|done].
  intros [= <- <-]. split; [done|].
  eapply (copy_nodes_ints (deep_copy_elem (deep_copy f))); [|exact Hh|exact Hcp].
  clear -IH H0. intros cv h vc h1 Hcv Hh. unfold deep_copy_elem.
  destruct (Value.type cv).
  - simpl. by intros [= <- <-].
  - destruct (Value.list cv) as [b|]; simpl; [|by apply IH].
    destruct (h !! b) as [nb|] eqn:Hb; simpl; [|done].
    destruct (deep_copy f (ListNode.v nb) h) as [[w h2]|] eqn:Hw; simpl; [|done].
    destruct (IH _ _ _ _ (Hh _ _ Hb) Hh Hw) as [_ Hh2]. by apply IH.
Qed.

Lemma execute_ints fuel ins pc prog st r st' :
  ints_in_range st → literal_in_range ins →
  execute fuel ins pc prog st = Some (r, st') → ints_in_range st'.
Proof.
  intros [Henv Hheap] Hlit H.
  assert (H0 : int64 0) by (unfold int64; lia).
  assert (Hins : ∀ (e : Env) id val,
            (∀ i w, e !! i = Some w → int64 (Value.ival w)) → int64 (Value.ival val) →
            ∀ i w, <[id := val]> e !! i = Some w → int64 (Value.ival w)).
  { intros e id val He Hval i w. rewrite lookup_insert. case_decide; [|apply He].
    by intros [= <-]. }
  destruct ins; simpl in Hlit; exec_cases; try done;
    repeat match goal with
    | Hd : deep_copy _ ?v ?h = Some _ |- _ =>
      let Hv := fresh in let Hh := fresh in
      assert (Hv : int64 (Value.ival v)) by (first [by eapply Henv|by eapply Hheap]);
      destruct (deep_copy_ints _ _ _ _ _ Hv Hheap Hd) as [? ?]; clear Hd
    | Hc : copy_nodes (deep_copy ?f) _ _ _ _ _ = Some _ |- _ =>
      apply (copy_nodes_ints (deep_copy f) (deep_copy_ints f)) in Hc; [|done]
    end;
    try (split; simpl; [first [done|by apply Hins; [done|simpl; apply wrap64_range]
                              |by apply Hins]|
                        first [done|by apply heap_ints_app]]).
Qed.

Lemma to_int_const_range s val : to_int_const s = (val, true) → int64 val.
Proof.
  unfold to_int_const, stoll, int64.
  repeat (case_match; try discriminate); intros [= <- _]; simplify_eq; done.
Qed.

Lemma wrap32_range n : (- 2 ^ 31 ≤ wrap32 n < 2 ^ 31)%Z.
Proof. unfold wrap32. pose proof (Z.mod_pos_bound (n + 2 ^ 31) (2 ^ 32)). lia. Qed.

Lemma parse_line_operands line lineno ins :
  parse_line line lineno = Ok (Some ins) →
  match ins with
  | Instr_ASSIGN _ _ val => int64 val
  | Instr_IF _ _ target => (1 ≤ target < 2 ^ 31)%Z
  | NOP _ => False
  | _ => True
  end.
Proof.
  unfold parse_line, parse_error. intros H.
  repeat (case_match; try discriminate); simplify_eq; try done.
  - match goal with Hc : to_int_const _ = (_, ?ok) |- _ =>
      destruct ok; [by apply to_int_const_range in Hc|done] end.
  - match goal with Hc : negb _ || (wrap32 ?v <=? 0)%Z = false |- _ =>
      apply orb_false_elim in Hc as [_ Hc]; pose proof (wrap32_range v) end. lia.
Qed.

Lemma load_lines_literals lines : ∀ lineno prog,
  load_lines lines lineno = Ok prog →
  Forall (λ o, ∀ ins, o = Some ins → literal_in_range ins) prog.
Proof.
  induction lines as [|line rest IH]; intros lineno prog; simpl.
  - intros [= <-]. constructor.
  - destruct (trim line) as [trimmed|].
    + destruct (parse_line trimmed (lineno + 1)) as [o|e] eqn:Hp; [|done].
      destruct (load_lines rest (lineno + 1)) as [prog'|e] eqn:Hl; [|done].
      intros [= <-]. constructor; [|by eapply IH].
      intros ins ->. apply parse_line_operands in Hp. by destruct ins.
    + destruct (load_lines rest (lineno + 1)) as [prog'|e] eqn:Hl; [|done].
      intros [= <-]. constructor; [done|by eapply IH].
Qed.

Lemma load_program_literals fs filename prog :
  load_program fs filename = Ok prog → Forall literal_in_range prog.
Proof.
  unfold load_program. destruct (fs filename) as [content|]; [|done].
  destruct (load_lines (getlines content) 0) as [prog0|e] eqn:Hl; [|done].
  intros [= <-]. apply load_lines_literals in Hl.
  apply Forall_lookup. intros i ins. unfold fill_nops. rewrite list_lookup_imap.
  destruct (prog0 !! i) as [[ins0|]|] eqn:Hi; simpl; [| |done]; intros [= <-]; [|done].
  by eapply (Forall_lookup_1 _ _ _ _ Hl Hi).
Qed.

Lemma run_loop_inv_prog (P : Store → Prop) steps fuel prog :
  (∀ ins pc st r st', ins ∈ prog → P st → execute fuel ins pc prog st = Some (r, st') → P st') →
  ∀ pc st ex, P st → run_loop steps fuel prog pc st = Some ex → P (exit_store ex).
Proof.
  intros Hstep. induction steps as [|n IH]; intros pc st ex HP.
  - simpl. repeat case_match; try done; by intros [= <-].
  - rewrite run_loop_unfold. repeat case_match; try (by intros [= <-]).
    destruct (prog !! Z.to_nat (pc - 1)) as [ins|] eqn:Hins; simpl; [|done].
    destruct (execute fuel ins pc prog st) as [[r st1]|] eqn:Hex; simpl; [|done].
    pose proof (Hstep _ _ _ _ _ (list_elem_of_lookup_2 _ _ _ Hins) HP Hex) as HP1.
    destruct r as [next|e]; [|by intros [= <-]].
    case_match; [by intros [= <-]|]. by apply IH.
Qed.

(** X9: whatever a loaded program does, every integer in the table and in
    the nodes is a [long long] when the run ends: the literals that the parser
    lets through fit, copies keep what they copy, and ADD and CHS reduce their
    result to the range. *)
Theorem X9_integers_stay_in_int64 steps fuel fs filename prog ex :
  load_program fs filename = Ok prog →
  run_loop steps fuel prog 1 empty_store = Some ex →
  ints_in_range (exit_store ex).
Proof.
  intros Hload. pose proof (load_program_literals _ _ _ Hload) as Hlit.
  apply (run_loop_inv_prog ints_in_range).
  - intros ins pc st r st' Hin Hst Hex. eapply execute_ints; [done| |done].
    by eapply (proj1 (Forall_forall _ _) Hlit).
  - split; [|by intros a node].
    intros id val Hid. simpl in Hid. by rewrite lookup_empty in Hid.
Qed.

Lemma X9_integers_witness :
  ints_in_range {| heap := []; env := <["x" := make_int (- 4)]> ∅ |}.
Proof.
  refine (X9_integers_stay_in_int64 3 0
            (λ _, Some "ASSIGN x 9223372036854775807
ADD x x
ADD x x") "p"
            [Instr_ASSIGN 1 "x" 9223372036854775807; Instr_ADD 2 "x" "x";
             Instr_ADD 3 "x" "x"]
            (Halted {| heap := []; env := <["x" := make_int (- 4)]> ∅ |}) _ _).
  - vm_compute. reflexivity.
  - vm_compute. reflexivity.
Defined.

(** ** Tokens *)

Lemma string_forall_app P s1 s2 :
  string_forall P (s1 +:+ s2) = string_forall P s1 && string_forall P s2.
Proof.
  induction s1 as [|c s1 IH]; [done|].
  change (P c && string_forall P (s1 +:+ s2)
          = P c && string_forall P s1 && string_forall P s2).
  rewrite IH. by rewrite andb_assoc.
Qed.

Lemma word_snoc s c : isspace c = false → 
  string_forall (λ c, negb (isspace c)) s = true → word (s +:+ String c "").
Proof.
  intros Hc Hs. split; [by destruct s|].
  rewrite string_forall_app, Hs. simpl. by rewrite Hc.
Qed.

Lemma tokenize_from_words line : ∀ cur,
  (∀ w, cur = Some w → word w) → Forall word (tokenize_from cur line).
Proof.
  induction line as [|c rest IH]; intros cur Hcur; simpl.
  - destruct cur as [w|]; [|constructor]. constructor; [by apply Hcur|constructor].
  - destruct (isspace c) eqn:Hc.
    + destruct cur as [w|]; [|by apply IH].
      constructor; [by apply Hcur|]. by apply IH.
    + apply IH. intros w [= <-]. apply word_snoc; [done|].
      destruct cur as [w|]; [by apply Hcur|done].
Qed.

Lemma tokenize_from_spaces t : ∀ cur,
  string_forall isspace t = true →
  tokenize_from cur t = match cur with Some w => [w] | None => [] end.
Proof.
  induction t as [|c t IH]; intros cur; simpl; [done|].
  intros [Hc Ht]%andb_true_iff. rewrite Hc.
  destruct cur as [w|]; by rewrite IH.
Qed.

Lemma tokenize_from_nil line : ∀ cur,
  tokenize_from cur line = [] → cur = None ∧ string_forall isspace line = true.
Proof.
  induction line as [|c rest IH]; intros cur; simpl.
  - by destruct cur.
  - destruct (isspace c) eqn:Hc; simpl.
    + destruct cur as [w|]; [done|]. intros H. by destruct (IH _ H).
    + intros H. by destruct (IH _ H).
Qed.

Lemma tokenize_from_word c w rest : ∀ cur,
  string_forall (λ c, negb (isspace c)) (String c w) = true →
  tokenize_from cur (String c w +:+ rest)
  = tokenize_from (Some (default "" cur +:+ String c w)) rest.
Proof.
  revert c. induction w as [|c' w IH]; intros c cur Hw.
  - simpl in Hw. change (String c "" +:+ rest) with (String c rest). simpl.
    destruct (isspace c); [done|]. done.
  - change (String c (String c' w) +:+ rest) with (String c (String c' w +:+ rest)).
    assert (Hc : isspace c = false).
    { simpl in Hw. by destruct (isspace c). }
    assert (Hw' : string_forall (λ c, negb (isspace c)) (String c' w) = true).
    { change (negb (isspace c) && string_forall (λ c, negb (isspace c)) (String c' w) = true)
        in Hw. by apply andb_true_iff in Hw as [_ ?]. }
    cbn [tokenize_from]. rewrite Hc. rewrite IH by done. simpl.
    by rewrite string_app_assoc.
Qed.

(** X10: [tokenize] cuts a line into words: no token is empty and none holds
    a white-space character; a line gives no token exactly when it holds
    white space only. *)
Theorem X10_tokenize_gives_words line :
  Forall word (tokenize line) ∧
  (tokenize line = [] ↔ string_forall isspace line = true).
Proof.
  split; [by apply tokenize_from_words|]. split.
  - intros H. by destruct (tokenize_from_nil _ _ H).
  - intros H. by apply (tokenize_from_spaces line None).
Qed.

Lemma tokenize_join ws : Forall word ws → tokenize (join " " ws) = ws.
Proof.
  assert (Hone : ∀ w, word w → ∀ rest,
            tokenize_from None (w +:+ rest) = tokenize_from (Some w) rest).
  { intros [|c w] [Hne Hw] rest; [done|]. by rewrite tokenize_from_word. }
  induction 1 as [|w ws Hw Hws IH]; [done|].
  destruct ws as [|w' ws].
  - simpl. rewrite <- (string_app_nil_r w) at 1. unfold tokenize. by rewrite Hone.
  - change (join " " (w :: w' :: ws)) with (w +:+ String " " (join " " (w' :: ws))).
    unfold tokenize in *. rewrite Hone by done.
    change (tokenize_from (Some w) (String " " (join " " (w' :: ws))))
      with (w :: tokenize_from None (join " " (w' :: ws))).
    by rewrite IH.
Qed.

(** X11: [tokenize] undoes the joining of words by single spaces. *)
Theorem X11_tokenize_join ws : Forall word ws → tokenize (join " " ws) = ws.
Proof. apply tokenize_join. Qed.

Lemma X11_tokenize_join_witness :
  tokenize (join " " ["ASSIGN"; "x"; "-12"]) = ["ASSIGN"; "x"; "-12"].
Proof.
  refine (X11_tokenize_join ["ASSIGN"; "x"; "-12"] _).
  repeat constructor; discriminate.
Defined.

(** ** Numbers as text *)

Lemma string_length_app (s1 s2 : string) :
  String.length (s1 +:+ s2) = String.length s1 + String.length s2.
Proof.
  induction s1 as [|c s1 IH]; [done|].
  change (S (String.length (s1 +:+ s2)) = S (String.length s1 + String.length s2)).
  by rewrite IH.
Qed.

Lemma pretty_N_char_digit m :
  (m < 10)%N →
  isdigit (pretty_N_char m) = true ∧ (N_of_ascii (pretty_N_char m) - 48)%N = m.
Proof.
  intros Hm.
  assert (m = 0 ∨ m = 1 ∨ m = 2 ∨ m = 3 ∨ m = 4 ∨ m = 5 ∨ m = 6 ∨ m = 7 ∨ m = 8 ∨ m = 9)%N
    as Hcases by lia.
  repeat (destruct Hcases as [->|Hcases]; [by vm_compute|]). subst m. by vm_compute.
Qed.

Lemma read_digits_cons c rest acc k :
  isdigit c = true →
  read_digits (String c rest) acc k
  = read_digits rest (10 * acc + Z.of_N (N_of_ascii c - 48))%Z (S k).
Proof. intros Hc. simpl. by rewrite Hc. Qed.

(** The digits that [pretty] puts before [s]. *)
Lemma pretty_N_go_digits x :
  (0 < x)%N → ∀ s,
  ∃ c d, pretty_N_go x s = String c d +:+ s ∧ isdigit c = true ∧
    ∀ rest acc k,
      read_digits (String c d +:+ rest) acc k
      = read_digits rest (acc * 10 ^ Z.of_nat (String.length (String c d)) + Z.of_N x)%Z
                    (k + String.length (String c d)).
Proof.
  induction (N.lt_wf_0 x) as [x _ IH]. intros Hx s.
  rewrite pretty_N_go_step by done.
  destruct (pretty_N_char_digit (x `mod` 10)) as [Hdig Hval]; [by apply N.mod_lt|].
  set (c := pretty_N_char (x `mod` 10)) in *.
  assert (Hdm : Z.of_N x = (10 * Z.of_N (x `div` 10) + Z.of_N (x `mod` 10))%Z).
  { rewrite (N.div_mod x 10) at 1 by done. lia. }
  destruct (decide (x `div` 10 = 0)%N) as [Hz|Hnz].
  - rewrite Hz, pretty_N_go_0. exists c, "". split_and!; [done..|].
    intros rest acc k. change (String c "" +:+ rest) with (String c rest).
    rewrite read_digits_cons by done. rewrite Hval.
    rewrite Hz in Hdm. simpl String.length.
    change (Z.of_nat 1) with 1%Z. rewrite Z.pow_1_r.
    replace (acc * 10 + Z.of_N x)%Z with (10 * acc + Z.of_N (x `mod` 10))%Z
      by (rewrite Hdm; simpl; lia).
    by rewrite Nat.add_1_r.
  - destruct (IH (x `div` 10)%N) with (s := String c s) as (c' & d' & Heq & Hc' & Hrd);
      [by apply N.div_lt|by apply N.neq_0_lt_0|].
    exists c', (d' +:+ String c ""). split_and!; [|done|].
    + rewrite Heq.
      change (String c' (d' +:+ String c s) = String c' ((d' +:+ String c "") +:+ s)).
      by rewrite string_app_assoc.
    + intros rest acc k.
      change (String c' (d' +:+ String c "") +:+ rest)
        with (String c' ((d' +:+ String c "") +:+ rest)).
      rewrite string_app_assoc.
      change (String c' (d' +:+ String c "" +:+ rest)) with (String c' d' +:+ String c rest).
      rewrite Hrd, read_digits_cons by done. rewrite Hval.
      change (String.length (String c' (d' +:+ String c "")))
        with (S (String.length (d' +:+ String c ""))).
      rewrite string_length_app. simpl String.length.
      replace (Z.of_nat (S (String.length d' + 1))) with (Z.of_nat (S (String.length d')) + 1)%Z
        by lia.
      rewrite Z.pow_add_r by lia. rewrite Z.pow_1_r.
      rewrite (Nat.add_1_r (String.length d')), <- (plus_n_Sm k (S (String.length d'))).
      f_equal. rewrite Hdm. simpl String.length. lia.
Qed.

Lemma stoll_digit c d :
  isdigit c = true →
  stoll (String c d)
  = let '(n, k3) := read_digits (String c d) 0 0 in
    if decide (k3 = 0) then None
    else if decide (- 2 ^ 63 ≤ n < 2 ^ 63)%Z then Some (n, k3) else None.
Proof.
  destruct c as [b0 b1 b2 b3 b4 b5 b6 b7].
  destruct b0, b1, b2, b3, b4, b5, b6, b7; try discriminate; intros _; reflexivity.
Qed.

Lemma stoll_minus s :
  stoll (String "-" s)
  = let '(n, k3) := read_digits s 0 1 in
    if decide (k3 = 1) then None
    else if decide (- 2 ^ 63 ≤ - n < 2 ^ 63)%Z then Some ((- n)%Z, k3) else None.
Proof. reflexivity. Qed.

Lemma to_int_const_to_string n : int64 n → to_int_const (to_string n) = (n, true).
Proof.
  unfold int64. intros Hn. destruct n as [|p|p].
  - reflexivity.
  - unfold to_string, pretty, pretty_Z, pretty, pretty_positive, pretty, pretty_N.
    rewrite decide_False by done.
    destruct (pretty_N_go_digits (N.pos p) ltac:(lia) "") as (c & d & Heq & Hc & Hrd).
    rewrite Heq. specialize (Hrd "" 0%Z 0). simpl read_digits at 2 in Hrd.
    rewrite string_app_nil_r in *.
    unfold to_int_const. rewrite stoll_digit by done. rewrite Hrd. simpl.
    rewrite decide_True by lia. by rewrite bool_decide_eq_true_2.
  - unfold to_string, pretty, pretty_Z, pretty, pretty_positive, pretty, pretty_N.
    rewrite decide_False by done.
    destruct (pretty_N_go_digits (N.pos p) ltac:(lia) "") as (c & d & Heq & Hc & Hrd).
    rewrite Heq. specialize (Hrd "" 0%Z 1). simpl read_digits at 2 in Hrd.
    rewrite string_app_nil_r in *.
    change ("-" +:+ String c d) with (String "-" (String c d)).
    unfold to_int_const. rewrite stoll_minus. rewrite Hrd. simpl.
    rewrite decide_True by lia. by rewrite bool_decide_eq_true_2.
Qed.

(** X12: the literal syntax of ASSIGN reads back what [to_string] prints:
    for every [long long] n, [to_int_const] accepts the decimal text of n and
    returns n. *)
Theorem X12_to_int_const_reads_to_string n :
  int64 n → to_int_const (to_string n) = (n, true).
Proof. apply to_int_const_to_string. Qed.

Lemma X12_to_int_const_witness :
  to_int_const (to_string (- 2 ^ 63)) = ((- 2 ^ 63)%Z, true).
Proof.
  refine (X12_to_int_const_reads_to_string (- 2 ^ 63) _).
  unfold int64. simpl. lia.
Defined.

(** ** Names *)

Lemma underscore_code c : c = "_"%char → N_of_ascii c = 95%N.
Proof. by intros ->. Qed.

Lemma ident_char_no_space c :
  isalnum c || bool_decide (c = "_"%char) = true → isspace c = false.
Proof.
  unfold isalnum, isalpha, isdigit, isspace.
  destruct (bool_decide_reflect (c = "_"%char)) as [->|_]; [done|].
  rewrite orb_false_r. generalize (N_of_ascii c). intros n.
  rewrite !orb_true_iff, !andb_true_iff, !N.leb_le.
  intros H. apply orb_false_intro; [apply N.eqb_neq|apply andb_false_iff; rewrite !N.leb_gt]; lia.
Qed.

Lemma match_sign {A} c (s : string) (fm fp : string → A) (d : A) :
  c ≠ "-"%char → c ≠ "+"%char →
  match String c s with
  | String "-" r => fm r
  | String "+" r => fp r
  | _ => d
  end = d.
Proof.
  intros Hm Hp. destruct c as [b0 b1 b2 b3 b4 b5 b6 b7].
  destruct b0, b1, b2, b3, b4, b5, b6, b7; try reflexivity; congruence.
Qed.

Lemma stoll_no_digit c rest :
  isspace c = false → isdigit c = false → c ≠ "-"%char → c ≠ "+"%char →
  stoll (String c rest) = None.
Proof.
  intros Hs Hd Hm Hp. unfold stoll. cbn [skip_space]. rewrite Hs.
  rewrite (match_sign c rest (λ r, (true, r, 1)) (λ r, (false, r, 1))
             (false, String c rest, 0)) by done.
  cbn [read_digits]. rewrite Hd. by rewrite decide_True.
Qed.

Lemma ident_start_no_number c rest :
  negb (isalpha c) && negb (bool_decide (c = "_"%char)) = false →
  stoll (String c rest) = None.
Proof.
  intros H.
  assert (Hcode : (65 ≤ N_of_ascii c ≤ 90 ∨ 97 ≤ N_of_ascii c ≤ 122 ∨ N_of_ascii c = 95)%N).
  { apply andb_false_iff in H as [H|H]; apply negb_false_iff in H.
    - unfold isalpha in H. rewrite orb_true_iff, !andb_true_iff, !N.leb_le in H. lia.
    - apply bool_decide_eq_true in H. subst c. right. right. done. }
  apply stoll_no_digit.
  - unfold isspace. apply orb_false_intro;
      [apply N.eqb_neq|apply andb_false_iff; rewrite !N.leb_gt]; lia.
  - unfold isdigit. apply andb_false_iff. rewrite !N.leb_gt. lia.
  - intros ->. simpl in Hcode. lia.
  - intros ->. simpl in Hcode. lia.
Qed.

Lemma forallb_string_forall P s :
  forallb P (list_ascii_of_string s) = string_forall P s.
Proof. induction s as [|c s IH]; simpl; [done|]. by rewrite IH. Qed.

Lemma string_forall_impl (P Q : ascii → bool) s :
  (∀ c, P c = true → Q c = true) → string_forall P s = true → string_forall Q s = true.
Proof.
  intros HPQ. induction s as [|c s IH]; simpl; [done|].
  intros [Hc Hs]%andb_true_iff. by rewrite (HPQ _ Hc), IH.
Qed.

(** X13: a string that [is_identifier] accepts is one word, so [tokenize]
    returns it whole, and it is no number: [to_int_const] refuses it.  A name
    can neither be split nor be taken for a literal. *)
Theorem X13_identifier_is_one_word_and_no_number s :
  is_identifier s = true →
  tokenize s = [s] ∧ to_int_const s = (0%Z, false) ∧ word s.
Proof.
  unfold is_identifier. destruct s as [|c0 rest]; [done|].
  destruct (negb (isalpha c0) && negb (bool_decide (c0 = "_"%char))) eqn:Hstart; [done|].
  rewrite forallb_string_forall. intros Hall.
  assert (Hword : word (String c0 rest)).
  { split; [done|]. eapply string_forall_impl; [|exact Hall].
    intros c Hc. simpl in Hc. by rewrite (ident_char_no_space c Hc). }
  split_and!; [|by unfold to_int_const; rewrite ident_start_no_number|done].
  apply (tokenize_join [String c0 rest]). by constructor.
Qed.

Lemma X13_identifier_witness :
  tokenize "_tmp9" = ["_tmp9"] ∧ to_int_const "_tmp9" = (0%Z, false) ∧ word "_tmp9".
Proof. refine (X13_identifier_is_one_word_and_no_number "_tmp9" _). reflexivity. Defined.

(** ** Lines *)

(** X14: whatever the line, [parse_line] answers with its line number: an
    error is a parse error whose text starts with "Line n: "; an instruction
    carries the number n, is never the no-op, has a [long long] literal if it
    is an ASSIGN and a target between 1 and 2^31 - 1 if it is an IF; and no
    instruction at all is returned exactly for a line of white space. *)
Theorem X14_parse_line_tags_its_result line lineno :
  match parse_line line lineno with
  | Throw e =>
    kind e = ParseError ∧
    ∃ rest, what e = "Line " +:+ to_string lineno +:+ ": " +:+ rest
  | Ok (Some ins) =>
    lineNo_of ins = lineno ∧
    match ins with
    | Instr_ASSIGN _ _ val => int64 val
    | Instr_IF _ _ target => (1 ≤ target < 2 ^ 31)%Z
    | NOP _ => False
    | _ => True
    end
  | Ok None => string_forall isspace line = true
  end.
Proof.
  destruct (parse_line line lineno) as [[ins|]|e] eqn:Hp.
  - split; [by eapply parse_line_lineNo|by eapply parse_line_operands].
  - unfold parse_line, parse_error in Hp.
    destruct (tokenize line) as [|op t] eqn:Ht.
    + by destruct (tokenize_from_nil _ _ Ht).
    + repeat (case_match; try discriminate).
  - unfold parse_line, parse_error in Hp.
    repeat (case_match; try discriminate); simplify_eq; (split; [done|]); simpl;
      match goal with
      | |- ∃ _, line_msg _ ?m _ = _ =>
        let m' := eval vm_compute in (String.substring 2 (String.length m) m) in
        change m with (": " +:+ m'); rewrite line_msg_colon; by eexists
      end.
Qed.

Lemma load_lines_length lines : ∀ lineno prog,
  load_lines lines lineno = Ok prog → length prog = length lines.
Proof.
  induction lines as [|line rest IH]; intros lineno prog; simpl.
  - by intros [= <-].
  - destruct (trim line) as [trimmed|].
    + destruct (parse_line trimmed (lineno + 1)) as [o|e]; [|done].
      destruct (load_lines rest (lineno + 1)) as [prog'|e] eqn:Hl; [|done].
      intros [= <-]. simpl. by rewrite (IH _ _ Hl).
    + destruct (load_lines rest (lineno + 1)) as [prog'|e] eqn:Hl; [|done].
      intros [= <-]. simpl. by rewrite (IH _ _ Hl).
Qed.

(** X15: a program that loads has one instruction for each line of the file,
    blank lines included, and the instruction at position i (from 0) carries
    the line number i + 1; so a jump target, a program counter and a number in
    a diagnostic all mean the same line. *)
Theorem X15_load_program_keeps_line_numbers fs filename prog :
  load_program fs filename = Ok prog →
  ∃ content, fs filename = Some content ∧
    length prog = length (getlines content) ∧
    ∀ i ins, prog !! i = Some ins → lineNo_of ins = (Z.of_nat i + 1)%Z.
Proof.
  intros Hload. pose proof (λ i ins, load_program_lineNo _ _ _ i ins Hload) as Hno.
  unfold load_program in Hload. destruct (fs filename) as [content|]; [|done].
  exists content. split; [done|]. split; [|intros i ins; apply Hno].
  destruct (load_lines (getlines content) 0) as [prog0|e] eqn:Hl; [|done].
  injection Hload as <-. unfold fill_nops. rewrite length_imap.
  by eapply load_lines_length.
Qed.

Lemma X15_load_program_witness :
  ∃ content, (λ _ : string, Some scenario_D_text) "d.ppl" = Some content ∧
    length scenario_D = length (getlines content) ∧
    ∀ i ins, scenario_D !! i = Some ins → lineNo_of ins = (Z.of_nat i + 1)%Z.
Proof.
  refine (X15_load_program_keeps_line_numbers (λ _, Some scenario_D_text) "d.ppl"
            scenario_D _).
  vm_compute. reflexivity.
Defined.

Lemma load_lines_app pre : ∀ post lineno p,
  load_lines pre lineno = Ok p →
  load_lines (pre ++ post) lineno
  = match load_lines post (lineno + Z.of_nat (length pre)) with
    | Ok q => Ok (p ++ q)
    | Throw e => Throw e
    end.
Proof.
  induction pre as [|line pre IH]; intros post lineno p.
  - simpl. intros [= <-]. rewrite Z.add_0_r. by destruct (load_lines post lineno).
  - cbn [load_lines app length].
    replace (lineno + Z.of_nat (S (length pre)))%Z
      with (lineno + 1 + Z.of_nat (length pre))%Z by lia.
    destruct (trim line) as [trimmed|].
    + destruct (parse_line trimmed (lineno + 1)) as [o|e]; [|done].
      destruct (load_lines pre (lineno + 1)) as [p'|e] eqn:Hl; [|done].
      intros [= <-]. rewrite (IH _ _ _ Hl).
      by destruct (load_lines post (lineno + 1 + Z.of_nat (length pre))).
    + destruct (load_lines pre (lineno + 1)) as [p'|e] eqn:Hl; [|done].
      intros [= <-]. rewrite (IH _ _ _ Hl).
      by destruct (load_lines post (lineno + 1 + Z.of_nat (length pre))).
Qed.

(** X16: loading stops at the first line that does not parse.  If the lines
    before line n load and line n, trimmed, is rejected with an error, then
    [load_program] throws that very error, whatever follows: the lines after
    it are not looked at and no program is returned. *)
Theorem X16_load_program_stops_at_first_error fs filename content pre bad post p t e :
  fs filename = Some content →
  getlines content = pre ++ bad :: post →
  load_lines pre 0 = Ok p →
  trim bad = Some t →
  parse_line t (Z.of_nat (length pre) + 1) = Throw e →
  load_program fs filename = Throw e.
Proof.
  intros Hfs Hlines Hpre Htrim Hparse. unfold load_program. rewrite Hfs, Hlines.
  rewrite (load_lines_app _ _ _ _ Hpre). cbn [load_lines].
  rewrite Htrim. rewrite Z.add_0_l. by rewrite Hparse.
Qed.

Lemma X16_load_program_witness :
  load_program (λ _, Some "INTEGER x
FOO x
this line is never read")
               "p"
  = Throw {| kind := ParseError; what := "Line 2: Unknown operation: FOO" |}.
Proof.
  refine (X16_load_program_stops_at_first_error _ "p" _ ["INTEGER x"] "FOO x"
            ["this line is never read"] [Some (Instr_INTEGER 1 "x")] "FOO x" _ _ _ _ _ _);
    vm_compute; reflexivity.
Defined.

(** ** Reading the file *)

Lemma getlines_from_line l : ∀ cur rest,
  string_forall (λ c, negb (bool_decide (c = "010"%char))) l = true →
  getlines_from cur (l +:+ String "010" rest) = (cur +:+ l) :: getlines_from "" rest.
Proof.
  induction l as [|c l IH]; intros cur rest.
  - intros _. change ("" +:+ String "010" rest) with (String "010" rest). simpl.
    by rewrite string_app_nil_r.
  - change (String c l +:+ String "010" rest) with (String c (l +:+ String "010" rest)).
    intros [Hc Hl]%andb_true_iff. apply negb_true_iff, bool_decide_eq_false in Hc.
    cbn [getlines_from]. rewrite decide_False by done. rewrite IH by done.
    by rewrite string_app_assoc.
Qed.

Lemma getlines_from_last l : ∀ cur,
  string_forall (λ c, negb (bool_decide (c = "010"%char))) l = true →
  getlines_from cur l = if decide (cur +:+ l = "") then [] else [cur +:+ l].
Proof.
  induction l as [|c l IH]; intros cur.
  - intros _. simpl. by rewrite string_app_nil_r.
  - intros [Hc Hl]%andb_true_iff. apply negb_true_iff, bool_decide_eq_false in Hc.
    cbn [getlines_from]. rewrite decide_False by done. rewrite IH by done.
    by rewrite string_app_assoc.
Qed.

(** X17: the reading loop gives back the lines a file was written from: for
    lines without a newline character, the text made of each line followed by
    a newline, and then of a last line without one, reads as those lines and
    that last line, which counts only if it is not empty. *)
Theorem X17_getlines_reads_lines_back ls last :
  Forall (λ l, string_forall (λ c, negb (bool_decide (c = "010"%char))) l = true) ls →
  string_forall (λ c, negb (bool_decide (c = "010"%char))) last = true →
  getlines (unlines ls +:+ last) = ls ++ (if decide (last = "") then [] else [last]).
Proof.
  intros Hls Hlast. unfold getlines. induction Hls as [|l ls Hl _ IH].
  - change (unlines [] +:+ last) with last. by rewrite getlines_from_last.
  - change (unlines (l :: ls)) with (l +:+ String "010" (unlines ls)).
    rewrite string_app_assoc.
    change (String "010" (unlines ls) +:+ last) with (String "010" (unlines ls +:+ last)).
    rewrite getlines_from_line by done. by rewrite IH.
Qed.

Lemma X17_getlines_witness :
  getlines (unlines ["INTEGER x"; ""; "HLT"] +:+ "") = ["INTEGER x"; ""; "HLT"] ++ [].
Proof.
  refine (X17_getlines_reads_lines_back ["INTEGER x"; ""; "HLT"] "" _ _).
  - repeat constructor.
  - reflexivity.
Defined.

(** ** Trimming *)

Lemma rev_app_spec s1 : ∀ s2, String.rev_app s1 s2 = String.rev s1 +:+ s2.
Proof.
  induction s1 as [|a s1 IH]; intros s2; [done|].
  unfold String.rev. cbn [String.rev_app]. rewrite (IH (String a s2)), (IH (String a "")).
  by rewrite string_app_assoc.
Qed.

Lemma rev_cons a s : String.rev (String a s) = String.rev s +:+ String a "".
Proof. unfold String.rev at 1. cbn [String.rev_app]. apply rev_app_spec. Qed.

Lemma rev_app_distr s1 s2 : String.rev (s1 +:+ s2) = String.rev s2 +:+ String.rev s1.
Proof.
  induction s1 as [|a s1 IH].
  - change ("" +:+ s2) with s2. by rewrite string_app_nil_r.
  - change (String a s1 +:+ s2) with (String a (s1 +:+ s2)).
    by rewrite !rev_cons, IH, string_app_assoc.
Qed.

Lemma rev_involutive s : String.rev (String.rev s) = s.
Proof.
  induction s as [|a s IH]; [done|]. by rewrite rev_cons, rev_app_distr, IH.
Qed.

Lemma string_forall_rev P s : string_forall P (String.rev s) = string_forall P s.
Proof.
  induction s as [|a s IH]; [done|].
  rewrite rev_cons, string_forall_app, IH. simpl. rewrite andb_true_r. apply andb_comm.
Qed.

Lemma drop_trim_split s :
  ∃ t, string_forall is_trim_char t = true ∧ s = t +:+ drop_trim s.
Proof.
  induction s as [|c s (t & Ht & Hs)]; [by exists ""|]. simpl.
  destruct (is_trim_char c) eqn:Hc; [|by exists ""].
  exists (String c t). split; [simpl; by rewrite Hc|].
  change (String c s = String c (t +:+ drop_trim s)). by f_equal.
Qed.

Lemma drop_trim_snoc a y x :
  is_trim_char a = false → drop_trim (x +:+ String a y) = drop_trim x +:+ String a y.
Proof.
  intros Ha. induction x as [|c x IH].
  - change ("" +:+ String a y) with (String a y). simpl. by rewrite Ha.
  - change (String c x +:+ String a y) with (String c (x +:+ String a y)). simpl.
    by destruct (is_trim_char c).
Qed.

Lemma drop_trim_idemp s : drop_trim (drop_trim s) = drop_trim s.
Proof.
  induction s as [|c s IH]; [done|]. simpl.
  destruct (is_trim_char c) eqn:Hc; [done|]. simpl. by rewrite Hc.
Qed.

Lemma drop_trim_head s a s0 : drop_trim s = String a s0 → is_trim_char a = false.
Proof.
  induction s as [|c s IH]; [done|]. simpl.
  destruct (is_trim_char c) eqn:Hc; [done|]. by intros [= <- _].
Qed.

Lemma drop_trim_nil s : drop_trim s = "" ↔ string_forall is_trim_char s = true.
Proof.
  induction s as [|c s IH]; [done|]. simpl.
  destruct (is_trim_char c); [done|]. split; done.
Qed.

Lemma trim_char_space c : is_trim_char c = true → isspace c = true.
Proof.
  unfold is_trim_char, isspace. generalize (N_of_ascii c). intros n.
  rewrite !orb_true_iff, andb_true_iff, !N.eqb_eq, !N.leb_le. lia.
Qed.

Lemma tokenize_from_skip t x :
  string_forall isspace t = true → tokenize_from None (t +:+ x) = tokenize_from None x.
Proof.
  induction t as [|c t IH]; [done|].
  change (String c t +:+ x) with (String c (t +:+ x)). simpl.
  intros [Hc Ht]%andb_true_iff. rewrite Hc. by apply IH.
Qed.

Lemma tokenize_from_trailing t x : ∀ cur,
  string_forall isspace t = true → tokenize_from cur (x +:+ t) = tokenize_from cur x.
Proof.
  intros cur Ht. revert cur. induction x as [|c x IH]; intros cur.
  - change ("" +:+ t) with t. by rewrite tokenize_from_spaces.
  - change (String c x +:+ t) with (String c (x +:+ t)). simpl.
    destruct (isspace c), cur; by rewrite ?IH.
Qed.

(** X18: trimming takes white space off both ends of a line and nothing else.
    The result lies between two runs of trimmed characters, it has the same
    tokens as the line, and trimming it again changes nothing; and a line is
    taken for blank exactly when it holds trimmed characters only. *)
Theorem X18_trim_keeps_the_tokens line :
  (trim line = None ↔ string_forall is_trim_char line = true) ∧
  (∀ t, trim line = Some t →
        (∃ pre post, line = pre +:+ t +:+ post ∧
                     string_forall is_trim_char pre = true ∧
                     string_forall is_trim_char post = true) ∧
        tokenize t = tokenize line ∧
        trim t = Some t).
Proof.
  unfold trim at 1 2. destruct (drop_trim line) as [|a s0] eqn:Hd.
  - split; [|done]. split; [intros _; by apply drop_trim_nil|done].
  - split.
    { split; [done|]. intros H. apply drop_trim_nil in H. congruence. }
    intros t [= <-].
    destruct (drop_trim_split line) as (pre & Hpre & Hline). rewrite Hd in Hline.
    pose proof (drop_trim_head _ _ _ Hd) as Ha.
    rewrite rev_cons, drop_trim_snoc by done.
    destruct (drop_trim_split (String.rev s0)) as (tr & Htr & Hrev).
    set (r := drop_trim (String.rev s0)) in *.
    assert (Hs0 : s0 = String.rev r +:+ String.rev tr).
    { rewrite <- (rev_involutive s0), Hrev. apply rev_app_distr. }
    rewrite rev_app_distr.
    change (String.rev (String a "") +:+ String.rev r) with (String a (String.rev r)).
    split_and!.
    + exists pre, (String.rev tr). split_and!; [|done|by rewrite string_forall_rev].
      rewrite Hline, Hs0. done.
    + unfold tokenize. rewrite Hline, Hs0.
      rewrite tokenize_from_skip
        by (eapply string_forall_impl; [|exact Hpre]; apply trim_char_space).
      change (String a (String.rev r +:+ String.rev tr))
        with (String a (String.rev r) +:+ String.rev tr).
      rewrite tokenize_from_trailing; [done|].
      rewrite string_forall_rev.
      eapply string_forall_impl; [|exact Htr]. apply trim_char_space.
    + unfold trim. cbn [drop_trim]. rewrite Ha.
      rewrite rev_cons, rev_involutive, drop_trim_snoc by done.
      unfold r. rewrite drop_trim_idemp. fold r.
      rewrite rev_app_distr. done.
Qed.

Lemma X18_trim_witness :
  (∃ pre post, "  ADD x  y 	" = pre +:+ "ADD x  y" +:+ post ∧
               string_forall is_trim_char pre = true ∧
               string_forall is_trim_char post = true) ∧
  tokenize "ADD x  y" = tokenize "  ADD x  y 	" ∧
  trim "ADD x  y" = Some "ADD x  y".
Proof.
  refine (proj2 (X18_trim_keeps_the_tokens "  ADD x  y 	") "ADD x  y" _).
  vm_compute. reflexivity.
Defined.

(** ** Assignment *)

Lemma exec_ASSIGN fuel ln id k pc prog st :
  (∀ val, env st !! id = Some val → Value.type val = VT_INT) →
  ∃ l, execute fuel (Instr_ASSIGN ln id k) pc prog st
       = Some (Ok (pc + 1)%Z,
               {| heap := heap st; env := <[id := Value.mk VT_INT k l]> (env st) |}) ∧
       l = from_option Value.list None (env st !! id).
Proof.
  intros Hint. unfold execute. destruct (env st !! id) as [val|] eqn:Hid.
  - rewrite (exists_Some _ _ _ Hid). simpl. rewrite (Hint val eq_refl). by eexists.
  - apply exists_false in Hid. rewrite Hid. by eexists.
Qed.

(** X19: ASSIGN id k needs no declaration.  When id is undeclared or an
    integer it binds id to the integer k and changes nothing else; a second
    ASSIGN to id then overrides the first as if the first had not been, and
    INTEGER id then fails as a redeclaration.  When id is a list it throws
    the type error and changes nothing. *)
Theorem X19_assign_declares_and_overwrites :
  (∀ fuel ln ln' id k k' pc pc' prog st,
     (∀ val, env st !! id = Some val → Value.type val = VT_INT) →
     ∃ st1 st2 v1 e,
       execute fuel (Instr_ASSIGN ln id k) pc prog st = Some (Ok (pc + 1)%Z, st1) ∧
       env st1 !! id = Some v1 ∧ Value.type v1 = VT_INT ∧ Value.ival v1 = k ∧
       heap st1 = heap st ∧ (∀ id', id' ≠ id → env st1 !! id' = env st !! id') ∧
       execute fuel (Instr_ASSIGN ln' id k') pc' prog st1 = Some (Ok (pc' + 1)%Z, st2) ∧
       execute fuel (Instr_ASSIGN ln' id k') pc' prog st = Some (Ok (pc' + 1)%Z, st2) ∧
       execute fuel (Instr_INTEGER ln' id) pc' prog st1 = Some (Throw e, st1) ∧
       kind e = AlreadyDeclared)
  ∧ (∀ fuel ln id k pc prog st val,
       env st !! id = Some val → Value.type val = VT_LIST →
       ∃ e, execute fuel (Instr_ASSIGN ln id k) pc prog st = Some (Throw e, st) ∧
            kind e = TypeMismatch).
Proof.
  split.
  - intros fuel ln ln' id k k' pc pc' prog st Hint.
    destruct (exec_ASSIGN fuel ln id k pc prog st Hint) as (l & Hex & Hl).
    destruct (exec_ASSIGN fuel ln' id k' pc' prog st Hint) as (l' & Hex' & Hl').
    set (st1 := {| heap := heap st; env := <[id := Value.mk VT_INT k l]> (env st) |}) in *.
    destruct (exec_ASSIGN fuel ln' id k' pc' prog st1) as (l1 & Hex1 & Hl1).
    { intros val. simpl. rewrite lookup_insert_eq. by intros [= <-]. }
    simpl in Hl1. rewrite lookup_insert_eq in Hl1. simpl in Hl1.
    eexists st1, _, _, _. split_and!; [done|apply lookup_insert_eq|done|done|done| | | | |].
    + intros id' Hne. simpl. by rewrite lookup_insert_ne.
    + exact Hex1.
    + rewrite Hex'. simpl. rewrite insert_insert_eq. by subst l1 l l'.
    + unfold execute. rewrite (exists_Some id (env st1) (Value.mk VT_INT k l))
        by apply lookup_insert_eq. reflexivity.
    + done.
  - intros fuel ln id k pc prog st val Hid Hty.
    unfold execute. rewrite (exists_Some _ _ _ Hid). simpl. rewrite Hid. simpl.
    rewrite Hty. by eexists.
Qed.

Lemma X19_assign_witness :
  ∃ st1 st2 v1 e,
    execute 0 (Instr_ASSIGN 1 "x" 5) 1 [] empty_store = Some (Ok (1 + 1)%Z, st1) ∧
    env st1 !! "x" = Some v1 ∧ Value.type v1 = VT_INT ∧ Value.ival v1 = 5%Z ∧
    heap st1 = heap empty_store ∧
    (∀ id', id' ≠ "x" → env st1 !! id' = env empty_store !! id') ∧
    execute 0 (Instr_ASSIGN 2 "x" 9) 2 [] st1 = Some (Ok (2 + 1)%Z, st2) ∧
    execute 0 (Instr_ASSIGN 2 "x" 9) 2 [] empty_store = Some (Ok (2 + 1)%Z, st2) ∧
    execute 0 (Instr_INTEGER 2 "x") 2 [] st1 = Some (Throw e, st1) ∧
    kind e = AlreadyDeclared.
Proof.
  refine (proj1 X19_assign_declares_and_overwrites 0 1%Z 2%Z "x" 5%Z 9%Z 1%Z 2%Z []
            empty_store _).
  intros val. simpl. rewrite lookup_empty. discriminate.
Defined.

(** ** Numeric operands *)

Lemma read_digits_all s : ∀ acc k,
  (read_digits s acc k).2 ≤ k + String.length s ∧
  ((read_digits s acc k).2 = k + String.length s → string_forall isdigit s = true).
Proof.
  induction s as [|c s IH]; intros acc k; simpl; [split; [lia|done]|].
  destruct (isdigit c) eqn:Hc; simpl; [|split; [lia|intros; lia]].
  destruct (IH (10 * acc + Z.of_N (N_of_ascii c - 48))%Z (S k)) as [Hle Hall].
  split; [lia|]. intros Heq. apply Hall. lia.
Qed.








(** ** Decimal text *)

Lemma digit_value_isdigit c :
  isdigit c = true → digit_value c = Some (Z.of_N (N_of_ascii c - 48)).
Proof.
  unfold isdigit. rewrite andb_true_iff, !N.leb_le. intros Hc.
  rewrite <- (ascii_N_embedding c). set (n := N_of_ascii c) in *.
  assert (n = 48 ∨ n = 49 ∨ n = 50 ∨ n = 51 ∨ n = 52 ∨ n = 53 ∨ n = 54 ∨ n = 55
          ∨ n = 56 ∨ n = 57)%N as Hcases by lia.
  repeat (destruct Hcases as [->|Hcases]; [by vm_compute|]). subst n.
  rewrite Hcases. by vm_compute.
Qed.

Lemma read_digits_value s : ∀ acc k,
  string_forall isdigit s = true →
  digits_value s acc = Some (read_digits s acc k).1.
Proof.
  induction s as [|c s IH]; intros acc k; simpl; [done|].
  rewrite andb_true_iff. intros [Hc Hs]. rewrite Hc, (digit_value_isdigit c Hc). simpl.
  by apply IH.
Qed.

Lemma pretty_N_char_lead m : (0 < m < 10)%N → pretty_N_char m ≠ "0"%char.
Proof.
  intros Hm.
  assert (m = 1 ∨ m = 2 ∨ m = 3 ∨ m = 4 ∨ m = 5 ∨ m = 6 ∨ m = 7 ∨ m = 8 ∨ m = 9)%N
    as Hcases by lia.
  repeat (destruct Hcases as [->|Hcases]; [by vm_compute|]). subst m. by vm_compute.
Qed.

(** [pretty] puts no zero in front. *)
Lemma pretty_N_go_lead x :
  (0 < x)%N → ∀ s, ∃ c d, pretty_N_go x s = String c d +:+ s ∧ c ≠ "0"%char.
Proof.
  induction (N.lt_wf_0 x) as [x _ IH]. intros Hx s.
  rewrite pretty_N_go_step by done.
  destruct (decide (x `div` 10 = 0)%N) as [Hz|Hnz].
  - rewrite Hz, pretty_N_go_0. exists (pretty_N_char (x `mod` 10)), "". split; [done|].
    apply pretty_N_char_lead. split; [|by apply N.mod_lt].
    rewrite (N.div_mod x 10) in Hx by done. lia.
  - destruct (IH (x `div` 10)%N) with (s := String (pretty_N_char (x `mod` 10)) s)
      as (c' & d' & Heq & Hc'); [by apply N.div_lt|by apply N.neq_0_lt_0|].
    exists c', (d' +:+ String (pretty_N_char (x `mod` 10)) ""). split; [|done].
    rewrite Heq.
    change (String c' (d' +:+ String (pretty_N_char (x `mod` 10)) s)
            = String c' ((d' +:+ String (pretty_N_char (x `mod` 10)) "") +:+ s)).
    by rewrite string_app_assoc.
Qed.

(** The digits of a positive number. *)
Lemma pretty_N_go_decimal x :
  (0 < x)%N →
  ∃ c d, pretty_N_go x "" = String c d ∧ c ≠ "0"%char ∧
         digits_value (String c d) 0 = Some (Z.of_N x).
Proof.
  intros Hx.
  destruct (pretty_N_go_digits x Hx "") as (c & d & Heq & Hc & Hrd).
  destruct (pretty_N_go_lead x Hx "") as (c' & d' & Heq' & Hc').
  rewrite string_app_nil_r in Heq, Heq'.
  assert (c' = c ∧ d' = d) as [-> ->] by (split; congruence).
  exists c, d. split_and!; [done|done|].
  specialize (Hrd "" 0%Z 0). rewrite string_app_nil_r in Hrd.
  rewrite (read_digits_value _ 0%Z 0).
  - rewrite Hrd. simpl. done.
  - apply (proj2 (read_digits_all (String c d) 0%Z 0)). by rewrite Hrd.
Qed.

(** [std::to_string] writes the decimal text of its argument. *)
Lemma to_string_decimal n : decimal_text n (to_string n).
Proof.
  destruct n as [|p|p].
  - exists "0". split_and!; [done..|]. intros rest Hr. by simplify_eq.
  - unfold to_string, pretty, pretty_Z, pretty, pretty_positive, pretty, pretty_N.
    rewrite decide_False by done.
    destruct (pretty_N_go_decimal (N.pos p)) as (c & d & -> & Hc & Hv); [lia|].
    exists (String c d). split_and!; [done..|].
    intros rest Hr. by simplify_eq.
  - unfold to_string, pretty, pretty_Z, pretty, pretty_positive, pretty, pretty_N.
    rewrite decide_False by done.
    destruct (pretty_N_go_decimal (N.pos p)) as (c & d & -> & Hc & Hv); [lia|].
    exists (String c d). split_and!; [done..|].
    intros rest Hr. by simplify_eq.
Qed.

(** ** The final report *)

(** C5: when the run halts (by HLT or by running past the last line), what
    main prints on the output stream is the final report and nothing goes to
    the error stream; the report has one line for each declared identifier
    and no other, the names ascend in the lexicographic order of strings, and
    the line of a name is the name, " = " and the rendering of what the name
    denotes: the decimal text of an integer (a minus sign if it is negative,
    then the digits of its absolute value, no zero in front), "[]" for the
    empty list, the renderings of the elements from head to tail, separated
    by ", " and enclosed in brackets, for any other list.  A run with
    numbers of several digits and of both signs prints
    a = -120, b = 9007, l = [-120], m = [[-120], 9007]. *)
Theorem C5_final_report :
  (∀ steps fuel prog st',
     run_loop steps fuel prog 1 empty_store = Some (Halted st') →
     ∃ fuel0, ∀ fuel', fuel0 ≤ fuel' →
       ∃ lines,
         run_program steps fuel' prog empty_store
           = Some ({| out := lines; err := [] |}, st') ∧
         StronglySorted String.le (sorted_names (env st')) ∧
         NoDup (sorted_names (env st')) ∧
         (∀ n, n ∈ sorted_names (env st') ↔ is_Some (env st' !! n)) ∧
         Forall2 (λ n line, ∃ x, denotes st' n x ∧ line = n +:+ " = " +:+ render x)
                 (sorted_names (env st')) lines ∧
         (∀ n, render (AInt n) = to_string n) ∧
         (∀ n, decimal_text n (render (AInt n))) ∧
         render (AList []) = "[]" ∧
         (∀ x xs, render (AList (x :: xs))
                  = "[" +:+ render x +:+ render_rest xs +:+ "]") ∧
         (∀ x xs, render_rest (x :: xs) = ", " +:+ render x +:+ render_rest xs) ∧
         render_rest [] = "")
  ∧ fst <$> run_program 9 3 scenario_signs empty_store
    = Some {| out := ["a = -120"; "b = 9007"; "l = [-120]"; "m = [[-120], 9007]"];
              err := [] |}.
Proof.
  split; [|vm_compute; reflexivity].
  intros steps fuel prog st' Hrun.
  pose proof (run_loop_wf _ _ _ _ _ _ wf_empty Hrun) as Hwf. simpl in Hwf.
  destruct (final_report_spec st' Hwf) as [fuel0 Hrep].
  exists (Nat.max fuel fuel0). intros fuel' Hfuel.
  destruct (Hrep fuel') as (lines & Hlines & Hall); [lia|].
  exists lines. split_and!.
  - unfold run_program.
    rewrite (run_loop_mono steps steps fuel fuel' _ _ _ _ (le_n _) ltac:(lia) Hrun).
    simpl. by rewrite Hlines.
  - apply sorted_names_sorted.
  - apply sorted_names_NoDup.
  - apply sorted_names_elem.
  - done.
  - done.
  - intros n. apply to_string_decimal.
  - done.
  - intros x xs.
    change (render (AList (x :: xs))) with ("[" +:+ join ", " (render <$> x :: xs) +:+ "]").
    by rewrite join_render, string_app_assoc.
  - done.
  - done.
Qed.

Lemma C5_final_report_witness :
  (∃ fuel0, ∀ fuel', fuel0 ≤ fuel' →
     ∃ lines,
       run_program 7 fuel' scenario_B empty_store
         = Some ({| out := lines; err := [] |}, scenario_B_final) ∧
       StronglySorted String.le (sorted_names (env scenario_B_final)) ∧
       NoDup (sorted_names (env scenario_B_final)) ∧
       (∀ n, n ∈ sorted_names (env scenario_B_final)
             ↔ is_Some (env scenario_B_final !! n)) ∧
       Forall2 (λ n line, ∃ x, denotes scenario_B_final n x
                               ∧ line = n +:+ " = " +:+ render x)
               (sorted_names (env scenario_B_final)) lines ∧
       (∀ n, render (AInt n) = to_string n) ∧
       (∀ n, decimal_text n (render (AInt n))) ∧
       render (AList []) = "[]" ∧
       (∀ x xs, render (AList (x :: xs))
                = "[" +:+ render x +:+ render_rest xs +:+ "]") ∧
       (∀ x xs, render_rest (x :: xs) = ", " +:+ render x +:+ render_rest xs) ∧
       render_rest [] = "")
  ∧ run_program 7 3 scenario_B empty_store
    = Some ({| out := ["a = 2"; "l = [2, 1]"]; err := [] |}, scenario_B_final).
Proof.
  split.
  - refine (proj1 C5_final_report 7 2 scenario_B scenario_B_final _).
    vm_compute. reflexivity.
  - vm_compute. reflexivity.
Defined.

(** X2: [value_to_string] of a sound value returns, once the fuel reaches the
    size of the value, the rendering of what the value denotes; the rendering
    of an integer is its decimal text. *)
Theorem X2_value_to_string_renders fuel x lo hi (h : Heap) val :
  val_repr lo hi h x val → aval_size x ≤ fuel →
  value_to_string fuel h val = Some (render x) ∧
  (∀ n, decimal_text n (render (AInt n))).
Proof.
  intros Hx Hfuel. split; [|intros n; apply to_string_decimal].
  unfold value_to_string. destruct (Value.type val) eqn:Hty.
  - by rewrite (val_repr_int_inv _ _ _ _ _ Hty Hx).
  - destruct (val_repr_list_inv _ _ _ _ _ Hty Hx) as (xs & -> & Hxs).
    pose proof (list_to_string_spec fuel xs _ _ _ _ Hxs) as Hs.
    destruct (list_to_string fuel h (Value.list val)) as [s|]; [by subst s|lia].
Qed.

Lemma X2_value_to_string_witness :
  value_to_string 4 [ListNode.mk (make_int 7) None;
                     ListNode.mk (make_list (Some 0)) (Some 0)]
                  (make_list (Some 1))
  = Some "[[7], 7]" ∧
  (∀ n, decimal_text n (render (AInt n))).
Proof.
  refine (X2_value_to_string_renders 4 (AList [AList [AInt 7]; AInt 7]) 0 2
            [ListNode.mk (make_int 7) None; ListNode.mk (make_list (Some 0)) (Some 0)]
            (make_list (Some 1)) _ _).
  - split; [done|]. exists 1, (ListNode.mk (make_list (Some 0)) (Some 0)).
    split_and!; [done|lia|lia|done| |].
    + split; [done|]. exists 0, (ListNode.mk (make_int 7) None).
      split_and!; [done|lia|lia|done|done|done].
    + exists 0, (ListNode.mk (make_int 7) None).
      split_and!; [done|lia|lia|done|done|done].
  - vm_compute. lia.
Defined.
